(** * Minesweeper inference engine: [Sentence] and [MinesweeperAI]

    A shallow embedding of [src/minesweeper.py] and the properties of its
    knowledge base.

    - A cell is a pair of integers ([Z]); a Python set of cells is a finite
      set ([gset]), whose equality is the [==] of Python sets.
    - The knowledge base is the Python list of sentences.  Every sentence in
      it is an object of its own (each is built where it is appended), so the
      list of their values is the whole state; [list.remove] and [==] compare
      sentences by [Sentence.__eq__], which is equality of the records.
    - A method that mutates the engine is a function from the engine to the
      engine after the call; a method that returns a value returns it next to
      the engine.
    - Loops over a list that the body shrinks follow Python's list iterator,
      an index into the live list.  Loops over a set walk [elements]; section
      [IterationOrder] shows that the order does not matter. *)

From Stdlib Require Import ZArith List Lia.
From stdpp Require Import base decidable list gmap fin_sets sorting.

Local Open Scope Z_scope.

#[local] Set Warnings "-clear-no-such-hyp".

(** ** Data model *)

(** A cell is the tuple [(i, j)]. *)
Abbreviation cell := (Z * Z)%type.

(** [class Sentence]: a set of cells and the number of them that are mines. *)
Record Sentence : Type := mkSentence {
  cells : gset cell;
  count : Z
}.

(** [Sentence.__eq__]: same cells and same count. *)
#[global] Instance Sentence_eq_dec : EqDecision Sentence.
Proof. solve_decision. Defined.

(** [len(s)] of a Python set, as an integer. *)
Definition len (s : gset cell) : Z := Z.of_nat (size s).

Module Sentence.

(** [Sentence.mark_mine]: drop the cell and decrement the count when the
    cell occurs in the sentence. *)
Definition mark_mine (s : Sentence) (c : cell) : Sentence :=
  if decide (c ∈ cells s)
  then mkSentence (cells s ∖ {[c]}) (count s - 1)
  else s.

(** [Sentence.mark_safe]: drop the cell, keep the count. *)
Definition mark_safe (s : Sentence) (c : cell) : Sentence :=
  if decide (c ∈ cells s)
  then mkSentence (cells s ∖ {[c]}) (count s)
  else s.

End Sentence.

(** [class MinesweeperAI]: the engine state. *)
Record MinesweeperAI : Type := mkAI {
  height : Z;
  width : Z;
  moves_made : gset cell;
  mines : gset cell;
  safes : gset cell;
  knowledge : list Sentence
}.

(** [MinesweeperAI.__init__]. *)
Definition init (h w : Z) : MinesweeperAI :=
  mkAI h w ∅ ∅ ∅ [].

(** ** Engine operations *)

(** [MinesweeperAI.mark_mine]: record the mine and tell every sentence. *)
Definition mark_mine (st : MinesweeperAI) (c : cell) : MinesweeperAI :=
  mkAI (height st) (width st) (moves_made st)
       ({[c]} ∪ mines st) (safes st)
       (map (λ s, Sentence.mark_mine s c) (knowledge st)).

(** [MinesweeperAI.mark_safe]: record the safe cell and tell every sentence. *)
Definition mark_safe (st : MinesweeperAI) (c : cell) : MinesweeperAI :=
  mkAI (height st) (width st) (moves_made st)
       (mines st) ({[c]} ∪ safes st)
       (map (λ s, Sentence.mark_safe s c) (knowledge st)).

(** The eight coordinates put into [neighbors] by [get_neighbor_cells],
    in the order of the source. *)
Definition neighbors (c : cell) : list cell :=
  [ (c.1 - 1, c.2); (c.1 + 1, c.2); (c.1, c.2 - 1); (c.1, c.2 + 1);
    (c.1 - 1, c.2 - 1); (c.1 - 1, c.2 + 1); (c.1 + 1, c.2 - 1); (c.1 + 1, c.2 + 1) ].

(** The test of the loop of [get_neighbor_cells]; the bound is the literal
    [8] of the source, whatever the engine's [height] and [width]. *)
Definition keeps (st : MinesweeperAI) (n : cell) : Prop :=
  (0 ≤ n.1 ∧ 0 ≤ n.2 ∧ n.1 ≠ 8 ∧ n.2 ≠ 8) ∧ (n ∉ safes st) ∧ (n ∉ moves_made st).

#[global] Instance keeps_dec st n : Decision (keeps st n).
Proof. unfold keeps. apply _. Defined.

(** [MinesweeperAI.get_neighbor_cells]. *)
Definition get_neighbor_cells (st : MinesweeperAI) (c : cell) : gset cell :=
  filter (keeps st) (list_to_set (neighbors c) : gset cell).

(** [list.remove(x)]: drop the first element equal to [x]. *)
Fixpoint list_remove (x : Sentence) (l : list Sentence) : list Sentence :=
  match l with
  | [] => []
  | y :: l' => if decide (y = x) then l' else y :: list_remove x l'
  end.

(** First loop of [knowledge_check]:
    [for sentence in knowledge: if len(sentence.cells) == 0: knowledge.remove(sentence)].
    The list iterator of Python is an index [i] into the live list: it yields
    [knowledge[i]] while [i < len(knowledge)] and then moves to [i + 1], also
    when the body has just shortened the list.  [n] bounds the number of
    iterations; [prune] starts it with the length of the list. *)
Fixpoint prune_loop (n i : nat) (kb : list Sentence) : list Sentence :=
  match n with
  | O => kb
  | S n' =>
      match kb !! i with
      | None => kb
      | Some s =>
          if decide (len (cells s) = 0)
          then prune_loop n' (S i) (list_remove s kb)
          else prune_loop n' (S i) kb
      end
  end.

Definition prune (kb : list Sentence) : list Sentence :=
  prune_loop (length kb) 0 kb.

(** Body of the second loop of [knowledge_check], on the pair
    [(safes, mines)]. *)
Definition scan_sentence (acc : gset cell * gset cell) (s : Sentence)
  : gset cell * gset cell :=
  if decide (count s = 0) then (cells s ∪ acc.1, acc.2)
  else if decide (count s = len (cells s)) then (acc.1, cells s ∪ acc.2)
  else acc.

Definition scan (kb : list Sentence) (acc : gset cell * gset cell)
  : gset cell * gset cell :=
  fold_left scan_sentence kb acc.

(** [for cell in self.safes: self.mark_safe(cell)] and the same for mines.
    The set iterated over does not change size during the loop (every cell
    added is already a member), so its elements are taken once. *)
Definition mark_all_safes (st : MinesweeperAI) : MinesweeperAI :=
  fold_left mark_safe (elements (safes st)) st.

Definition mark_all_mines (st : MinesweeperAI) : MinesweeperAI :=
  fold_left mark_mine (elements (mines st)) st.

(** [MinesweeperAI.knowledge_check], called on [self.knowledge]. *)
Definition knowledge_check (st : MinesweeperAI) : MinesweeperAI :=
  let kb := prune (knowledge st) in
  let sm := scan kb (safes st, mines st) in
  let st1 := mkAI (height st) (width st) (moves_made st) sm.2 sm.1 kb in
  mark_all_mines (mark_all_safes st1).

(** The test [obj.cells & sentence.cells == sentence.cells]. *)
Definition covers (s obj : Sentence) : bool :=
  bool_decide (cells obj ∩ cells s = cells s).

(** The sentence appended by the subset loop of [add_knowledge]. *)
Definition derived (obj s : Sentence) : Sentence :=
  mkSentence (cells obj ∖ cells s) (count obj - count s).

(** The subset loop of [add_knowledge]: the first sentence that covers the
    new one yields one derived sentence, then the loop breaks. *)
Definition resolve (kb : list Sentence) (s : Sentence) : list Sentence :=
  match find (covers s) kb with
  | Some obj => kb ++ [derived obj s]
  | None => kb
  end.

(** The first two statements of [add_knowledge]: record the move and mark
    the revealed cell safe. *)
Definition observe (st : MinesweeperAI) (c : cell) : MinesweeperAI :=
  mark_safe (mkAI (height st) (width st) ({[c]} ∪ moves_made st)
                  (mines st) (safes st) (knowledge st)) c.

(** [Sentence(self.get_neighbor_cells(cell), count)]. *)
Definition new_sentence (st : MinesweeperAI) (c : cell) (n : Z) : Sentence :=
  mkSentence (get_neighbor_cells (observe st c) c) n.

(** [add_knowledge] up to and including [self.knowledge.append(sentence)]. *)
Definition add_sentence (st : MinesweeperAI) (c : cell) (n : Z) : MinesweeperAI :=
  let st2 := observe st c in
  let s := new_sentence st c n in
  mkAI (height st2) (width st2) (moves_made st2) (mines st2) (safes st2)
       (resolve (knowledge st2) s ++ [s]).

(** [MinesweeperAI.add_knowledge]. *)
Definition add_knowledge (st : MinesweeperAI) (c : cell) (n : Z) : MinesweeperAI :=
  knowledge_check (add_sentence st c n).

(** [MinesweeperAI.make_safe_move]: the result and the engine after the call. *)
Definition make_safe_move (st : MinesweeperAI) : option cell * MinesweeperAI :=
  (head (filter (λ c, c ∉ moves_made st) (elements (safes st))), st).

(** The cells visited by the two [range(8)] loops of [make_random_move],
    in row-major order. *)
Definition grid8 : list cell :=
  flat_map (λ i, map (λ j, (i, j)) (seqZ 0 8)) (seqZ 0 8).

(** [MinesweeperAI.make_random_move]: the result and the engine after the call. *)
Definition make_random_move (st : MinesweeperAI) : option cell * MinesweeperAI :=
  (head (filter (λ c, (c ∉ moves_made st) ∧ (c ∉ mines st)) grid8), st).

(** ** The board, as far as the engine's callers use it *)

Module Board.

(** [class Minesweeper].  The constructor keeps [self.board[i][j]] true
    exactly for the pairs of [self.mines], so the grid of booleans is
    represented by that set. *)
Record Minesweeper : Type := mkBoard {
  height : Z;
  width : Z;
  mines : gset cell
}.

(** [self.board[i][j]]. *)
Definition board (g : Minesweeper) (n : cell) : bool :=
  bool_decide (n ∈ mines g).

Definition in_bounds (g : Minesweeper) (n : cell) : Prop :=
  (0 ≤ n.1 < height g) ∧ (0 ≤ n.2 < width g).

#[global] Instance in_bounds_dec g n : Decision (in_bounds g n).
Proof. unfold in_bounds. apply _. Defined.

(** The constructor draws every mine with [randrange(height)] and
    [randrange(width)]. *)
Definition wf (g : Minesweeper) : Prop :=
  set_Forall (in_bounds g) (mines g).

#[global] Instance wf_dec g : Decision (wf g).
Proof. unfold wf. apply _. Defined.

(** [Minesweeper.is_mine]. *)
Definition is_mine (g : Minesweeper) (c : cell) : bool := board g c.

(** The cells visited by the two loops of [nearby_mines]. *)
Definition window (c : cell) : list cell :=
  flat_map (λ i, map (λ j, (i, j)) (seqZ (c.2 - 1) 3)) (seqZ (c.1 - 1) 3).

(** [Minesweeper.nearby_mines]. *)
Definition nearby_mines (g : Minesweeper) (c : cell) : Z :=
  fold_left
    (λ cnt n,
       if decide (n = c) then cnt
       else if decide (in_bounds g n)
            then (if board g n then cnt + 1 else cnt)
            else cnt)
    (window c) 0.

End Board.

(** ** Sequences of calls *)

(** The calls a driver can make on an engine; [KnowledgeCheck] is
    [knowledge_check(self.knowledge)], the way [add_knowledge] calls it. *)
Inductive call : Type :=
| AddKnowledge (c : cell) (n : Z)
| MarkSafe (c : cell)
| MarkMine (c : cell)
| KnowledgeCheck
| MakeSafeMove
| MakeRandomMove.

Definition step (st : MinesweeperAI) (k : call) : MinesweeperAI :=
  match k with
  | AddKnowledge c n => add_knowledge st c n
  | MarkSafe c => mark_safe st c
  | MarkMine c => mark_mine st c
  | KnowledgeCheck => knowledge_check st
  | MakeSafeMove => (make_safe_move st).2
  | MakeRandomMove => (make_random_move st).2
  end.

(** The engine after the calls [ks], made in order on [st]. *)
Definition run (st : MinesweeperAI) (ks : list call) : MinesweeperAI :=
  fold_left step ks st.

(** A call tells the truth about the board [g]: the revealed cell is not a
    mine and comes with the board's own count, a cell marked safe is not a
    mine, a cell marked as a mine is one. *)
Definition truthful (g : Board.Minesweeper) (k : call) : Prop :=
  match k with
  | AddKnowledge c n => (c ∉ Board.mines g) ∧ n = Board.nearby_mines g c
  | MarkSafe c => c ∉ Board.mines g
  | MarkMine c => c ∈ Board.mines g
  | KnowledgeCheck | MakeSafeMove | MakeRandomMove => True
  end.

(** ** The vocabulary of the specification *)

(** A sentence is within range when [0 <= count <= |cells|]. *)
Definition in_range (s : Sentence) : Prop :=
  0 ≤ count s ≤ len (cells s).

(** A sentence holds on the mine layout [M] when exactly [count] of its
    cells are mines. *)
Definition holds (M : gset cell) (s : Sentence) : Prop :=
  count s = len (cells s ∩ M).

(** The fixed point asked of the closure: no sentence with count [0] has a
    cell outside the safe set, none with [count = |cells| > 0] has a cell
    outside the mine set. *)
Definition closed (st : MinesweeperAI) : Prop :=
  ∀ s, s ∈ knowledge st →
    (count s = 0 → cells s ⊆ safes st) ∧
    (count s = len (cells s) → 0 < len (cells s) → cells s ⊆ mines st).

(** [neighbors_of] as the specification words it: the eight adjacent
    coordinates within the engine's own bounds, not yet safe or played. *)
Definition neighbors_of (st : MinesweeperAI) (c : cell) : gset cell :=
  filter (λ n, ((0 ≤ n.1 < height st) ∧ (0 ≤ n.2 < width st)) ∧
               (n ∉ safes st) ∧ (n ∉ moves_made st))
         (list_to_set (neighbors c) : gset cell).

(** The engine is sound for the layout [M]: no safe or played cell is a
    mine, every cell of the mine set is one, every sentence holds. *)
Definition sound (M : gset cell) (st : MinesweeperAI) : Prop :=
  safes st ## M ∧ moves_made st ## M ∧ mines st ⊆ M ∧
  Forall (holds M) (knowledge st).

#[global] Instance truthful_dec g k : Decision (truthful g k).
Proof. destruct k; simpl; apply _. Defined.

(** ** Sample boards and games *)

(** A board with one mine, at [(0, 1)], and a game played on it. *)
Definition board_one_mine : Board.Minesweeper :=
  Board.mkBoard 8 8 {[(0, 1)]}.

Definition game_one_mine : list call :=
  [ AddKnowledge (0, 4) 0; MakeSafeMove; AddKnowledge (2, 3) 0;
    AddKnowledge (0, 0) 1; MarkMine (0, 1); AddKnowledge (0, 2) 1;
    MarkSafe (7, 7); KnowledgeCheck; MakeRandomMove ].

(** The engine after three truthful observations: its knowledge base is the
    single sentence [{(0,1), (1,0), (1,1)} = 1]. *)
Definition three_moves : MinesweeperAI :=
  run (init 8 8) [AddKnowledge (0, 4) 0; AddKnowledge (2, 3) 0; AddKnowledge (0, 0) 1].


(** ** The board as the game class stores it

    [class Minesweeper] with its grid of booleans, for its constructor and
    its accessors.  The random source of the constructor is the list of raw
    draws it consumes; [randrange(n)] maps a draw into [0 .. n - 1] and raises
    [ValueError] when that range is empty. *)

Module Grid.

Inductive error : Type := ValueError | IndexError.

(** [l[i]] on a Python list: a negative index counts from the end, an index
    out of range raises [IndexError]. *)
Definition py_index {A} (l : list A) (i : Z) : error + A :=
  let k := if decide (0 ≤ i) then i else Z.of_nat (length l) + i in
  if decide (0 ≤ k)
  then match l !! Z.to_nat k with
       | Some x => inr x
       | None => inl IndexError
       end
  else inl IndexError.

Record Minesweeper : Type := mkGrid {
  height : Z;
  width : Z;
  mines : gset cell;
  board : list (list bool);
  mines_found : gset cell
}.

(** The field of [False] built by the first loops of [__init__]. *)
Definition empty_board (h w : Z) : list (list bool) :=
  replicate (Z.to_nat h) (replicate (Z.to_nat w) false).

(** [random.randrange(n)] on the raw draw [r]. *)
Definition randrange (n r : Z) : error + Z :=
  if decide (0 < n) then inr (r `mod` n) else inl ValueError.

(** [self.board[i][j]]. *)
Definition read (b : list (list bool)) (n : cell) : error + bool :=
  match py_index b n.1 with
  | inl e => inl e
  | inr row => py_index row n.2
  end.

(** [self.board[i][j] = True], for the indices [randrange] gives. *)
Definition set_mine (b : list (list bool)) (n : cell) : list (list bool) :=
  alter (λ row, <[Z.to_nat n.2 := true]> row) (Z.to_nat n.1) b.

(** What running the constructor on a finite list of draws comes to: the
    board is built, an exception is raised, or the [while] loop is still
    asking for draws. *)
Inductive outcome : Type :=
| Built (g : Minesweeper)
| Raised (e : error)
| Drawing.

(** The loop [while len(self.mines) != mines] of [__init__].  The first
    [randrange] of an iteration tests its range before it draws: on a board
    without rows it raises with no draw made, also when none is left. *)
Fixpoint place (draws : list (Z * Z)) (target : Z) (g : Minesweeper) : outcome :=
  if decide (len (mines g) = target) then Built g
  else
    match draws with
    | [] => if decide (0 < height g) then Drawing else Raised ValueError
    | r :: draws' =>
        match randrange (height g) r.1 with
        | inl e => Raised e
        | inr i =>
            match randrange (width g) r.2 with
            | inl e => Raised e
            | inr j =>
                match read (board g) (i, j) with
                | inl e => Raised e
                | inr true => place draws' target g
                | inr false =>
                    place draws' target
                      (mkGrid (height g) (width g) ({[(i, j)]} ∪ mines g)
                              (set_mine (board g) (i, j)) (mines_found g))
                end
            end
        end
    end.

(** [Minesweeper.__init__(height, width, mines)]. *)
Definition new (h w target : Z) (draws : list (Z * Z)) : outcome :=
  place draws target (mkGrid h w ∅ (empty_board h w) ∅).

(** [Minesweeper.is_mine]. *)
Definition is_mine (g : Minesweeper) (c : cell) : error + bool :=
  read (board g) c.

(** One step of the loops of [nearby_mines]. *)
Definition count_cell (g : Minesweeper) (c : cell) (acc : error + Z) (n : cell)
  : error + Z :=
  match acc with
  | inl e => inl e
  | inr cnt =>
      if decide (n = c) then inr cnt
      else if decide ((0 ≤ n.1 < height g) ∧ (0 ≤ n.2 < width g))
           then match read (board g) n with
                | inl e => inl e
                | inr true => inr (cnt + 1)
                | inr false => inr cnt
                end
           else inr cnt
  end.

(** [Minesweeper.nearby_mines]. *)
Definition nearby_mines (g : Minesweeper) (c : cell) : error + Z :=
  fold_left (count_cell g c) (Board.window c) (inr 0).

(** [Minesweeper.won]. *)
Definition won (g : Minesweeper) : bool :=
  bool_decide (mines_found g = mines g).

(** The grid and the set of mines agree: the grid has [height] rows of
    [width] cells, holds [True] exactly at the mines, and every mine is on
    the board. *)
Definition consistent (g : Minesweeper) : Prop :=
  length (board g) = Z.to_nat (height g) ∧
  Forall (λ row, length row = Z.to_nat (width g)) (board g) ∧
  (∀ n, (0 ≤ n.1 < height g) → (0 ≤ n.2 < width g) →
        read (board g) n = inr (bool_decide (n ∈ mines g))) ∧
  (∀ n, n ∈ mines g → (0 ≤ n.1 < height g) ∧ (0 ≤ n.2 < width g)).

(** The board as the engine's callers see it. *)
Definition to_board (g : Minesweeper) : Board.Minesweeper :=
  Board.mkBoard (height g) (width g) (mines g).

(** The cells the draws hit on a board of [h] rows and [w] columns. *)
Definition hits (h w : Z) (draws : list (Z * Z)) : gset cell :=
  list_to_set (map (λ r, (r.1 `mod` h, r.2 `mod` w)) draws).

End Grid.

(** The adjacency of two cells: different, and at most one row and one
    column apart. *)
Definition adjacent (c n : cell) : Prop :=
  n ≠ c ∧ (c.1 - 1 ≤ n.1 ≤ c.1 + 1) ∧ (c.2 - 1 ≤ n.2 ≤ c.2 + 1).

(** Row-major order on cells. *)
Definition row_major_le (a b : cell) : Prop :=
  a.1 < b.1 ∨ (a.1 = b.1 ∧ a.2 ≤ b.2).

(** A sentence without cells. *)
Definition is_empty (s : Sentence) : Prop := cells s = ∅.

#[global] Instance is_empty_dec s : Decision (is_empty s).
Proof. unfold is_empty. apply _. Defined.

(** No two neighbours in the list are both without cells. *)
Fixpoint no_adjacent_empty (kb : list Sentence) : Prop :=
  match kb with
  | s :: (s' :: _) as kb' => ¬ (is_empty s ∧ is_empty s') ∧ no_adjacent_empty kb'
  | _ => True
  end.

(** What a sentence is once the cells of [S] have been marked safe. *)
Definition without_safes (S : gset cell) (s : Sentence) : Sentence :=
  mkSentence (cells s ∖ S) (count s).

(** What a sentence is once the cells of [S] have been marked as mines. *)
Definition without_mines (S : gset cell) (s : Sentence) : Sentence :=
  mkSentence (cells s ∖ S) (count s - len (cells s ∩ S)).

#[global] Instance row_major_le_dec a b : Decision (row_major_le a b).
Proof. unfold row_major_le. apply _. Defined.

#[global] Instance grid_error_eq_dec : EqDecision Grid.error.
Proof. solve_decision. Defined.

(** What the loop of [__init__] has reached when it stops on the board [g],
    started on [g0] with the draws [draws]. *)
Definition placed (target : Z) (draws : list (Z * Z))
    (g0 g : Grid.Minesweeper) : Prop :=
  Grid.consistent g ∧ len (Grid.mines g) = target ∧
  Grid.height g = Grid.height g0 ∧ Grid.width g = Grid.width g0 ∧
  Grid.mines_found g = Grid.mines_found g0 ∧
  Grid.mines g0 ⊆ Grid.mines g ∧
  Grid.mines g ⊆ Grid.mines g0 ∪ Grid.hits (Grid.height g0) (Grid.width g0) draws.

(** A call made by a driver that asks the board [g]: a cell is revealed when
    [is_mine] says it is not a mine, with the count [nearby_mines] gives; a
    cell is marked safe or as a mine as [is_mine] says (a cell of the board,
    for a mine). *)
Definition honest (g : Grid.Minesweeper) (k : call) : Prop :=
  match k with
  | AddKnowledge c n =>
      Grid.is_mine g c = inr false ∧ Grid.nearby_mines g c = inr n
  | MarkSafe c => Grid.is_mine g c = inr false
  | MarkMine c => (0 ≤ c.1 ∧ 0 ≤ c.2) ∧ Grid.is_mine g c = inr true
  | KnowledgeCheck | MakeSafeMove | MakeRandomMove => True
  end.

#[global] Instance honest_dec g k : Decision (honest g k).
Proof. destruct k; simpl; apply _. Defined.

(** The board [Minesweeper(8, 8, 1)] builds when its draws hit [(0, 1)]. *)
Definition grid_one_mine : Grid.Minesweeper :=
  Grid.mkGrid 8 8 {[(0, 1)]} (Grid.set_mine (Grid.empty_board 8 8) (0, 1)) ∅.

(** ** Sentences *)

Section SentenceFacts.

Implicit Types (s : Sentence) (c : cell) (M : gset cell).

Lemma sentence_mark_safe_cells s c :
  cells (Sentence.mark_safe s c) = cells s ∖ {[c]}.
Proof.
  unfold Sentence.mark_safe. destruct (decide (c ∈ cells s)); simpl; set_solver.
Qed.

Lemma sentence_mark_safe_count s c :
  count (Sentence.mark_safe s c) = count s.
Proof. unfold Sentence.mark_safe. by destruct (decide (c ∈ cells s)). Qed.


Lemma sentence_mark_mine_count s c :
  count (Sentence.mark_mine s c) =
  if decide (c ∈ cells s) then count s - 1 else count s.
Proof. unfold Sentence.mark_mine. by destruct (decide (c ∈ cells s)). Qed.





Lemma len_nonneg (X : gset cell) : 0 ≤ len X.
Proof. unfold len. lia. Qed.

Lemma len_zero (X : gset cell) : len X = 0 ↔ X = ∅.
Proof.
  unfold len. split.
  - intros H. apply leibniz_equiv, size_empty_iff. lia.
  - intros ->. by rewrite size_empty.
Qed.

(** A sentence that holds on some layout is within range. *)
Lemma holds_in_range M s : holds M s → in_range s.
Proof.
  unfold holds, in_range, len. intros ->. split; [lia|].
  apply inj_le, subseteq_size. set_solver.
Qed.

Lemma holds_zero_disjoint M s : holds M s → count s = 0 → cells s ## M.
Proof.
  unfold holds. intros Hs Hz. rewrite Hz in Hs. symmetry in Hs.
  apply len_zero in Hs. set_solver.
Qed.

Lemma holds_full_subseteq M s :
  holds M s → count s = len (cells s) → cells s ⊆ M.
Proof.
  unfold holds, len. intros Hs Hf. rewrite Hf in Hs.
  assert (cells s ∩ M = cells s) as Heq.
  { apply set_subseteq_size_eq; [set_solver | lia]. }
  set_solver.
Qed.

Lemma holds_mark_safe M s c :
  c ∉ M → holds M s → holds M (Sentence.mark_safe s c).
Proof.
  unfold holds. intros Hc Hs.
  rewrite sentence_mark_safe_count, sentence_mark_safe_cells, Hs.
  f_equal. set_solver.
Qed.

Lemma holds_mark_mine M s c :
  c ∈ M → holds M s → holds M (Sentence.mark_mine s c).
Proof.
  unfold holds, Sentence.mark_mine. intros Hc Hs.
  destruct (decide (c ∈ cells s)) as [Hin|Hin]; [simpl | done].
  assert (cells s ∩ M = {[c]} ∪ (cells s ∖ {[c]}) ∩ M) as Heq.
  { apply set_eq. intros x. destruct (decide (x = c)); set_solver. }
  rewrite Hs, Heq. unfold len.
  rewrite size_union by set_solver. rewrite size_singleton. lia.
Qed.

Lemma holds_derived M obj s :
  cells obj ∩ cells s = cells s →
  holds M obj → holds M s → holds M (derived obj s).
Proof.
  unfold holds, derived. simpl. intros Hsub Hobj Hs.
  assert (cells obj ∩ M = cells s ∩ M ∪ (cells obj ∖ cells s) ∩ M) as Heq.
  { apply set_eq. intros x. destruct (decide (x ∈ cells s)); set_solver. }
  rewrite Hobj, Hs, Heq. unfold len.
  rewrite size_union by set_solver. lia.
Qed.

End SentenceFacts.

(** ** The loops of [knowledge_check] *)

Section Prune.

Implicit Types (s x y : Sentence) (kb l : list Sentence).

Lemma list_remove_subset x l y : y ∈ list_remove x l → y ∈ l.
Proof.
  induction l as [|z l IH]; simpl; [done|].
  destruct (decide (z = x)); rewrite ?elem_of_cons; set_solver.
Qed.

Lemma list_remove_keeps x l y : y ∈ l → y ≠ x → y ∈ list_remove x l.
Proof.
  induction l as [|z l IH]; simpl; [done|].
  intros Hy Hne. destruct (decide (z = x)) as [->|];
    rewrite ?elem_of_cons in *; set_solver.
Qed.

Lemma list_remove_length x l :
  x ∈ l → length l = S (length (list_remove x l)).
Proof.
  induction l as [|z l IH]; simpl; [by intros ?%elem_of_nil|].
  destruct (decide (z = x)) as [->|Hne]; [done|].
  intros [?|Hin]%elem_of_cons; [congruence|]. simpl. by rewrite <- IH.
Qed.

(** The loop stops by itself: once the bound [n] covers what is left of
    the list after index [i], a larger bound gives the same list. *)
Lemma prune_loop_enough n k i kb :
  (length kb ≤ i + n)%nat → prune_loop (n + k) i kb = prune_loop n i kb.
Proof.
  revert i kb. induction n as [|n IH]; intros i kb Hlen.
  - simpl. destruct k as [|k]; [done|]. simpl.
    rewrite lookup_ge_None_2 by lia. done.
  - simpl. destruct (kb !! i) as [s|] eqn:Hs; [|done].
    destruct (decide (len (cells s) = 0)).
    + apply IH.
      pose proof (list_remove_length s kb (list_elem_of_lookup_2 _ _ _ Hs)).
      lia.
    + apply IH. lia.
Qed.

(** [prune] gives the loop all the iterations it can use. *)
Lemma prune_enough k kb : prune_loop (length kb + k) 0 kb = prune kb.
Proof. unfold prune. apply prune_loop_enough. lia. Qed.

Lemma prune_loop_subset n i kb y : y ∈ prune_loop n i kb → y ∈ kb.
Proof.
  revert i kb. induction n as [|n IH]; intros i kb; simpl; [done|].
  destruct (kb !! i) as [s|]; [|done].
  destruct (decide (len (cells s) = 0)); intros Hy%IH; [|done].
  by eapply list_remove_subset.
Qed.

(** Pruning only ever drops sentences without cells. *)
Lemma prune_loop_keeps n i kb y :
  y ∈ kb → cells y ≠ ∅ → y ∈ prune_loop n i kb.
Proof.
  revert i kb. induction n as [|n IH]; intros i kb Hy Hne; simpl; [done|].
  destruct (kb !! i) as [s|]; [|done].
  destruct (decide (len (cells s) = 0)) as [Hz|]; [|by apply IH].
  apply IH; [|done]. apply list_remove_keeps; [done|].
  intros ->. by apply len_zero in Hz.
Qed.

Lemma prune_subset kb y : y ∈ prune kb → y ∈ kb.
Proof. apply prune_loop_subset. Qed.

Lemma prune_keeps kb y : y ∈ kb → cells y ≠ ∅ → y ∈ prune kb.
Proof. apply prune_loop_keeps. Qed.

Lemma prune_Forall (P : Sentence → Prop) kb :
  Forall P kb → Forall P (prune kb).
Proof.
  rewrite !Forall_forall. intros H y Hy. by apply H, prune_subset.
Qed.

End Prune.

Section Scan.

Implicit Types (s : Sentence) (kb : list Sentence) (acc : gset cell * gset cell).

Lemma scan_safes kb acc c :
  c ∈ (scan kb acc).1 ↔
  c ∈ acc.1 ∨ ∃ s, s ∈ kb ∧ count s = 0 ∧ c ∈ cells s.
Proof.
  unfold scan. revert acc. induction kb as [|s kb IH]; intros acc; simpl.
  - split; [by left|]. intros [?|(s & ?%elem_of_nil & _)]; done.
  - rewrite IH. unfold scan_sentence.
    destruct (decide (count s = 0)) as [Hz|Hz]; simpl.
    + rewrite elem_of_union. split.
      * intros [[?|?]|(s' & ? & ? & ?)]; [right; exists s|by left|right; exists s'];
          rewrite elem_of_cons; naive_solver.
      * intros [?|(s' & [->|?]%elem_of_cons & ? & ?)]; naive_solver.
    + assert (∀ X : gset cell * gset cell, X.1 = acc.1 →
                (c ∈ X.1 ∨ (∃ s', s' ∈ kb ∧ count s' = 0 ∧ c ∈ cells s')) ↔
                (c ∈ acc.1 ∨ ∃ s', s' ∈ s :: kb ∧ count s' = 0 ∧ c ∈ cells s')) as Hgen.
      { intros X ->. split.
        - intros [?|(s' & ? & ? & ?)]; [by left|right; exists s'].
          rewrite elem_of_cons. naive_solver.
        - intros [?|(s' & [->|?]%elem_of_cons & ? & ?)]; naive_solver. }
      destruct (decide (count s = len (cells s))); by apply Hgen.
Qed.

Lemma scan_mines kb acc c :
  c ∈ (scan kb acc).2 ↔
  c ∈ acc.2 ∨ ∃ s, s ∈ kb ∧ count s ≠ 0 ∧ count s = len (cells s) ∧ c ∈ cells s.
Proof.
  unfold scan. revert acc. induction kb as [|s kb IH]; intros acc; simpl.
  - split; [by left|]. intros [?|(s & ?%elem_of_nil & _)]; done.
  - rewrite IH. unfold scan_sentence.
    assert (∀ X : gset cell * gset cell, X.2 = acc.2 →
              (count s = 0 ∨ count s ≠ len (cells s)) →
              (c ∈ X.2 ∨ (∃ s', s' ∈ kb ∧ count s' ≠ 0 ∧
                                count s' = len (cells s') ∧ c ∈ cells s')) ↔
              (c ∈ acc.2 ∨ ∃ s', s' ∈ s :: kb ∧ count s' ≠ 0 ∧
                                count s' = len (cells s') ∧ c ∈ cells s')) as Hgen.
    { intros X -> Hs. split.
      - intros [?|(s' & ? & ? & ? & ?)]; [by left|right; exists s'].
        rewrite elem_of_cons. naive_solver.
      - intros [?|(s' & [->|?]%elem_of_cons & ? & ? & ?)]; naive_solver. }
    destruct (decide (count s = 0)) as [Hz|Hz]; [apply Hgen; auto|].
    destruct (decide (count s = len (cells s))) as [Hf|Hf]; [|apply Hgen; auto].
    simpl. rewrite elem_of_union. split.
    + intros [[?|?]|(s' & ? & ? & ? & ?)];
        [right; exists s|by left|right; exists s']; rewrite elem_of_cons; naive_solver.
    + intros [?|(s' & [->|?]%elem_of_cons & ? & ? & ?)]; naive_solver.
Qed.

End Scan.

(** ** Marking *)

Section Marking.

Implicit Types (st : MinesweeperAI) (c : cell) (l : list cell).

Lemma fold_mark_safe_moves l st :
  moves_made (fold_left mark_safe l st) = moves_made st.
Proof. revert st. induction l as [|c l IH]; intros st; simpl; [done|]. by rewrite IH. Qed.

Lemma fold_mark_safe_mines l st :
  mines (fold_left mark_safe l st) = mines st.
Proof. revert st. induction l as [|c l IH]; intros st; simpl; [done|]. by rewrite IH. Qed.

Lemma fold_mark_safe_safes l st :
  safes (fold_left mark_safe l st) = list_to_set l ∪ safes st.
Proof.
  revert st. induction l as [|c l IH]; intros st; simpl; [set_solver|].
  rewrite IH. simpl. set_solver.
Qed.

Lemma fold_mark_mine_moves l st :
  moves_made (fold_left mark_mine l st) = moves_made st.
Proof. revert st. induction l as [|c l IH]; intros st; simpl; [done|]. by rewrite IH. Qed.

Lemma fold_mark_mine_safes l st :
  safes (fold_left mark_mine l st) = safes st.
Proof. revert st. induction l as [|c l IH]; intros st; simpl; [done|]. by rewrite IH. Qed.

Lemma fold_mark_mine_mines l st :
  mines (fold_left mark_mine l st) = list_to_set l ∪ mines st.
Proof.
  revert st. induction l as [|c l IH]; intros st; simpl; [set_solver|].
  rewrite IH. simpl. set_solver.
Qed.

Lemma mark_all_safes_safes st : safes (mark_all_safes st) = safes st.
Proof.
  unfold mark_all_safes. rewrite fold_mark_safe_safes, list_to_set_elements_L.
  set_solver.
Qed.

Lemma mark_all_mines_mines st : mines (mark_all_mines st) = mines st.
Proof.
  unfold mark_all_mines. rewrite fold_mark_mine_mines, list_to_set_elements_L.
  set_solver.
Qed.

Lemma knowledge_check_moves st :
  moves_made (knowledge_check st) = moves_made st.
Proof.
  unfold knowledge_check, mark_all_mines, mark_all_safes.
  by rewrite fold_mark_mine_moves, fold_mark_safe_moves.
Qed.

Lemma knowledge_check_safes st :
  safes (knowledge_check st) =
  (scan (prune (knowledge st)) (safes st, mines st)).1.
Proof.
  unfold knowledge_check, mark_all_mines.
  by rewrite fold_mark_mine_safes, mark_all_safes_safes.
Qed.

Lemma knowledge_check_mines st :
  mines (knowledge_check st) =
  (scan (prune (knowledge st)) (safes st, mines st)).2.
Proof.
  unfold knowledge_check. rewrite mark_all_mines_mines.
  unfold mark_all_safes. by rewrite fold_mark_safe_mines.
Qed.

(** The safe set and the mine set only grow in [knowledge_check]. *)
Lemma knowledge_check_safes_mono st : safes st ⊆ safes (knowledge_check st).
Proof.
  rewrite knowledge_check_safes. intros c Hc. apply scan_safes. by left.
Qed.

Lemma knowledge_check_mines_mono st : mines st ⊆ mines (knowledge_check st).
Proof.
  rewrite knowledge_check_mines. intros c Hc. apply scan_mines. by left.
Qed.

Lemma add_sentence_moves st c n :
  moves_made (add_sentence st c n) = {[c]} ∪ moves_made st.
Proof. done. Qed.

Lemma add_sentence_safes st c n :
  safes (add_sentence st c n) = {[c]} ∪ safes st.
Proof. done. Qed.

Lemma add_sentence_mines st c n :
  mines (add_sentence st c n) = mines st.
Proof. done. Qed.

Lemma add_sentence_knowledge st c n :
  knowledge (add_sentence st c n) =
  resolve (knowledge (observe st c)) (new_sentence st c n) ++
  [new_sentence st c n].
Proof. done. Qed.

Lemma add_knowledge_moves st c n :
  moves_made (add_knowledge st c n) = {[c]} ∪ moves_made st.
Proof. unfold add_knowledge. by rewrite knowledge_check_moves. Qed.

End Marking.

(** ** Soundness of the deductions on a fixed mine layout *)

Section Soundness.

Variable M : gset cell.

Implicit Types (st : MinesweeperAI) (c : cell) (l : list cell).

Lemma sound_init h w : sound M (init h w).
Proof. unfold sound, init. simpl. repeat split; [set_solver..|constructor]. Qed.

Lemma sound_mark_safe st c : c ∉ M → sound M st → sound M (mark_safe st c).
Proof.
  intros Hc (Hs & Hp & Hm & Hk). unfold sound, mark_safe. simpl.
  repeat split; [set_solver|done|done|].
  apply Forall_fmap. eapply Forall_impl; [exact Hk|].
  intros s Hs'. by apply holds_mark_safe.
Qed.

Lemma sound_mark_mine st c : c ∈ M → sound M st → sound M (mark_mine st c).
Proof.
  intros Hc (Hs & Hp & Hm & Hk). unfold sound, mark_mine. simpl.
  repeat split; [done|done|set_solver|].
  apply Forall_fmap. eapply Forall_impl; [exact Hk|].
  intros s Hs'. by apply holds_mark_mine.
Qed.

Lemma sound_fold_mark_safe l st :
  Forall (λ c, c ∉ M) l → sound M st → sound M (fold_left mark_safe l st).
Proof.
  revert st. induction l as [|c l IH]; intros st Hl Hst; simpl; [done|].
  inversion Hl; subst. apply IH; [done|]. by apply sound_mark_safe.
Qed.

Lemma sound_fold_mark_mine l st :
  Forall (λ c, c ∈ M) l → sound M st → sound M (fold_left mark_mine l st).
Proof.
  revert st. induction l as [|c l IH]; intros st Hl Hst; simpl; [done|].
  inversion Hl; subst. apply IH; [done|]. by apply sound_mark_mine.
Qed.

Lemma sound_knowledge_check st : sound M st → sound M (knowledge_check st).
Proof.
  intros (Hs & Hp & Hm & Hk). unfold knowledge_check.
  set (kb := prune (knowledge st)).
  assert (Forall (holds M) kb) as Hkb by by apply prune_Forall.
  assert ((scan kb (safes st, mines st)).1 ## M) as Hs1.
  { intros c [Hc|(s & Hin & Hz & Hc)]%scan_safes HM; simpl in *; [set_solver|].
    rewrite Forall_forall in Hkb.
    pose proof (holds_zero_disjoint M s (Hkb _ Hin) Hz). set_solver. }
  assert ((scan kb (safes st, mines st)).2 ⊆ M) as Hm1.
  { intros c [Hc|(s & Hin & _ & Hf & Hc)]%scan_mines; simpl in *; [set_solver|].
    rewrite Forall_forall in Hkb.
    pose proof (holds_full_subseteq M s (Hkb _ Hin) Hf). set_solver. }
  unfold mark_all_mines, mark_all_safes.
  apply sound_fold_mark_mine.
  { rewrite Forall_forall. intros c Hc%elem_of_elements.
    rewrite fold_mark_safe_mines in Hc. simpl in Hc. set_solver. }
  apply sound_fold_mark_safe.
  { rewrite Forall_forall. intros c Hc%elem_of_elements. simpl in Hc. set_solver. }
  unfold sound. simpl. done.
Qed.

Lemma resolve_holds kb s :
  Forall (holds M) kb → holds M s → Forall (holds M) (resolve kb s).
Proof.
  intros Hkb Hs. unfold resolve.
  destruct (find (covers s) kb) as [obj|] eqn:Hf; [|done].
  apply find_some in Hf as [Hin Hcov].
  apply Forall_app. split; [done|]. constructor; [|constructor].
  apply holds_derived; [|  |done].
  - unfold covers in Hcov. by apply bool_decide_eq_true in Hcov.
  - rewrite Forall_forall in Hkb. by apply Hkb, list_elem_of_In.
Qed.

(** A revealed cell that is not a mine, with a sentence that holds, keeps
    the engine sound. *)
Lemma sound_observe st c : c ∉ M → sound M st → sound M (observe st c).
Proof.
  intros Hc (? & ? & ? & ?). apply sound_mark_safe; [done|].
  unfold sound. simpl. repeat split; [done|set_solver|done|done].
Qed.

(** A revealed cell that is not a mine, with a sentence that holds, keeps
    the engine sound. *)
Lemma sound_add_knowledge st c n :
  c ∉ M →
  sound M st →
  holds M (new_sentence st c n) →
  sound M (add_knowledge st c n).
Proof.
  intros Hc Hst Hs. unfold add_knowledge. apply sound_knowledge_check.
  destruct (sound_observe st c Hc Hst) as (? & ? & ? & Hk).
  unfold sound, add_sentence. simpl. repeat split; [done..|].
  apply Forall_app. split; [|by repeat constructor].
  by apply resolve_holds.
Qed.

End Soundness.

(** ** The board's counts and the engine's sentences *)

Section BoardFacts.

Implicit Types (g : Board.Minesweeper) (c x : cell).

Lemma elem_of_neighbors c x :
  x ∈ neighbors c ↔
  (c.1 - 1 ≤ x.1 ≤ c.1 + 1) ∧ (c.2 - 1 ≤ x.2 ≤ c.2 + 1) ∧ x ≠ c.
Proof.
  destruct c as [i j], x as [a b]. unfold neighbors. simpl.
  rewrite !elem_of_cons, elem_of_nil, !pair_equal_spec. lia.
Qed.

Lemma elem_of_window c x :
  x ∈ Board.window c ↔
  (c.1 - 1 ≤ x.1 ≤ c.1 + 1) ∧ (c.2 - 1 ≤ x.2 ≤ c.2 + 1).
Proof.
  destruct c as [i j], x as [a b]. unfold Board.window, seqZ. simpl.
  rewrite !elem_of_cons, elem_of_nil, !pair_equal_spec. lia.
Qed.

Lemma NoDup_neighbors c : NoDup (neighbors c).
Proof.
  destruct c as [i j]. unfold neighbors. simpl.
  repeat (apply NoDup_cons; split;
          [rewrite ?elem_of_cons, elem_of_nil, ?pair_equal_spec; lia|]).
  apply NoDup_nil_2.
Qed.

Lemma NoDup_window c : NoDup (Board.window c).
Proof.
  destruct c as [i j]. unfold Board.window, seqZ. simpl.
  repeat (apply NoDup_cons; split;
          [rewrite ?elem_of_cons, elem_of_nil, ?pair_equal_spec; lia|]).
  apply NoDup_nil_2.
Qed.

(** The counting loop of [nearby_mines], started at [a]. *)
Lemma nearby_mines_fold g c l a :
  Board.wf g →
  fold_left
    (λ cnt n,
       if decide (n = c) then cnt
       else if decide (Board.in_bounds g n)
            then (if Board.board g n then cnt + 1 else cnt)
            else cnt) l a =
  a + Z.of_nat (length (filter (λ n, n ≠ c ∧ n ∈ Board.mines g) l)).
Proof.
  intros Hwf. revert a. induction l as [|n l IH]; intros a; simpl; [lia|].
  rewrite IH, filter_cons. unfold Board.board.
  destruct (decide (n = c)) as [->|Hne].
  { rewrite decide_False by tauto. lia. }
  destruct (decide (Board.in_bounds g n)) as [Hb|Hb].
  - case_bool_decide.
    + rewrite decide_True by done. simpl. lia.
    + rewrite decide_False by tauto. lia.
  - rewrite decide_False; [lia|]. intros [_ Hm]. by apply Hb, Hwf.
Qed.

(** [nearby_mines] counts the mines among the eight neighbours. *)
Lemma nearby_mines_count g c :
  Board.wf g →
  Board.nearby_mines g c =
  Z.of_nat (length (filter (λ n, n ∈ Board.mines g) (neighbors c))).
Proof.
  intros Hwf. unfold Board.nearby_mines.
  rewrite nearby_mines_fold by done. rewrite Z.add_0_l. f_equal.
  apply Permutation_length, NoDup_Permutation.
  - apply NoDup_filter, NoDup_window.
  - apply NoDup_filter, NoDup_neighbors.
  - intros x.
    rewrite !list_elem_of_filter, elem_of_window, elem_of_neighbors. tauto.
Qed.

(** On a board of at most 8 by 8 cells the sentence built from the board's
    count holds: every neighbouring mine passes the engine's bound test and
    is neither safe nor played. *)
Lemma neighbor_sentence_holds g st c :
  Board.wf g → Board.height g ≤ 8 → Board.width g ≤ 8 →
  sound (Board.mines g) st →
  holds (Board.mines g)
        (mkSentence (get_neighbor_cells st c) (Board.nearby_mines g c)).
Proof.
  intros Hwf Hh Hw (Hs & Hp & _ & _). unfold holds. simpl.
  rewrite nearby_mines_count by done. unfold len. f_equal.
  assert (get_neighbor_cells st c ∩ Board.mines g =
          list_to_set (filter (λ n, n ∈ Board.mines g) (neighbors c))) as ->.
  { apply set_eq. intros x. unfold get_neighbor_cells.
    rewrite elem_of_intersection, elem_of_filter, !elem_of_list_to_set,
      list_elem_of_filter.
    split; [tauto|]. intros [Hm Hx]. split; [split; [|done]|done].
    unfold keeps. destruct (Hwf _ Hm) as [? ?].
    repeat split; [lia..|set_solver|set_solver]. }
  rewrite size_list_to_set; [done|]. apply NoDup_filter, NoDup_neighbors.
Qed.

End BoardFacts.

(** ** Truthful play *)

Section TruthfulPlay.

Variable g : Board.Minesweeper.
Hypothesis g_wf : Board.wf g.
Hypothesis g_height : Board.height g ≤ 8.
Hypothesis g_width : Board.width g ≤ 8.

Lemma sound_step st k :
  truthful g k → sound (Board.mines g) st → sound (Board.mines g) (step st k).
Proof.
  destruct k as [c n|c|c| | |]; simpl; intros Hk Hst.
  - destruct Hk as [Hc ->]. apply sound_add_knowledge; [done..|].
    apply neighbor_sentence_holds; [done..|]. by apply sound_observe.
  - by apply sound_mark_safe.
  - by apply sound_mark_mine.
  - by apply sound_knowledge_check.
  - done.
  - done.
Qed.

Lemma sound_run st ks :
  Forall (truthful g) ks →
  sound (Board.mines g) st → sound (Board.mines g) (run st ks).
Proof.
  unfold run. revert st. induction ks as [|k ks IH]; intros st Hks Hst; simpl; [done|].
  inversion Hks; subst. apply IH; [done|]. by apply sound_step.
Qed.

End TruthfulPlay.

(** ** Move selection *)

Section Moves.

Implicit Types (st : MinesweeperAI) (c : cell).

Lemma elem_of_grid8 c : c ∈ grid8 ↔ (0 ≤ c.1 < 8) ∧ (0 ≤ c.2 < 8).
Proof.
  unfold grid8. rewrite list_elem_of_In, in_flat_map. split.
  - intros (i & Hi & Hc). apply in_map_iff in Hc as (j & <- & Hj).
    apply list_elem_of_In, elem_of_seqZ in Hi, Hj. simpl. lia.
  - intros [Hi Hj]. exists c.1. split.
    + apply list_elem_of_In, elem_of_seqZ. lia.
    + apply in_map_iff. exists c.2. split; [by destruct c|].
      apply list_elem_of_In, elem_of_seqZ. lia.
Qed.

Lemma head_filter_Some {A} (P : A → Prop) `{!∀ x, Decision (P x)} (l : list A) x :
  head (filter P l) = Some x → P x ∧ x ∈ l.
Proof. intros Hh%head_Some_elem_of. by apply list_elem_of_filter in Hh. Qed.

Lemma head_filter_None {A} (P : A → Prop) `{!∀ x, Decision (P x)} (l : list A) :
  head (filter P l) = None ↔ ∀ x, x ∈ l → ¬ P x.
Proof.
  rewrite head_None. split.
  - intros Hnil x Hx HP.
    assert (x ∈ filter P l) as Hin by by apply list_elem_of_filter.
    rewrite Hnil in Hin. by apply elem_of_nil in Hin.
  - intros Hall. destruct (filter P l) as [|y l'] eqn:Hf; [done|].
    assert (y ∈ filter P l) as Hin by (rewrite Hf; left).
    apply list_elem_of_filter in Hin as [HP Hy]. by destruct (Hall y Hy).
Qed.

(** [make_random_move] never proposes a played cell or a known mine, and
    finds a free cell of the 8 by 8 grid whenever there is one. *)
Lemma make_random_move_grid8 st :
  (make_random_move st).2 = st ∧
  (∀ c, (make_random_move st).1 = Some c →
        c ∈ grid8 ∧ (c ∉ moves_made st) ∧ (c ∉ mines st)) ∧
  ((make_random_move st).1 = None ↔
   ∀ c, c ∈ grid8 → c ∈ moves_made st ∨ c ∈ mines st).
Proof.
  unfold make_random_move. simpl. split; [done|]. split.
  - intros c Hc%head_filter_Some. tauto.
  - rewrite head_filter_None. split; intros Hall c Hc; specialize (Hall c Hc).
    + destruct (decide (c ∈ moves_made st)), (decide (c ∈ mines st)); tauto.
    + tauto.
Qed.

End Moves.

(** ** Iteration order of sets

    Python does not fix the order in which a set is iterated; the model walks
    [elements].  The marking loops give the same engine in any order, and
    [make_safe_move] meets its contract for any order. *)

Section IterationOrder.

Implicit Types (st : MinesweeperAI) (s : Sentence) (a b c : cell) (l : list cell).

Lemma sentence_mark_safe_eq s c :
  Sentence.mark_safe s c = mkSentence (cells s ∖ {[c]}) (count s).
Proof.
  unfold Sentence.mark_safe. destruct (decide (c ∈ cells s)); [done|].
  destruct s as [X k]. simpl in *. f_equal. set_solver.
Qed.

Lemma sentence_mark_mine_comm s a b :
  Sentence.mark_mine (Sentence.mark_mine s a) b =
  Sentence.mark_mine (Sentence.mark_mine s b) a.
Proof.
  destruct (decide (a = b)) as [->|Hab]; [done|].
  destruct s as [X k]. unfold Sentence.mark_mine. simpl.
  destruct (decide (a ∈ X)) as [Ha|Ha], (decide (b ∈ X)) as [Hb|Hb]; simpl.
  - rewrite !decide_True by set_solver. simpl. f_equal. set_solver.
  - rewrite decide_False by set_solver. rewrite decide_True by done. done.
  - rewrite decide_True by done. rewrite decide_False by set_solver. done.
  - rewrite !decide_False by done. done.
Qed.

Lemma mark_safe_comm st a b :
  mark_safe (mark_safe st a) b = mark_safe (mark_safe st b) a.
Proof.
  unfold mark_safe. simpl. f_equal; [set_solver|].
  rewrite !map_map. apply map_ext. intros s.
  rewrite !sentence_mark_safe_eq. simpl. f_equal. set_solver.
Qed.

Lemma mark_mine_comm st a b :
  mark_mine (mark_mine st a) b = mark_mine (mark_mine st b) a.
Proof.
  unfold mark_mine. simpl. f_equal; [set_solver|].
  rewrite !map_map. apply map_ext. intros s. apply sentence_mark_mine_comm.
Qed.

Lemma fold_left_comm_perm (f : MinesweeperAI → cell → MinesweeperAI) l l' st :
  (∀ st a b, f (f st a) b = f (f st b) a) →
  l ≡ₚ l' → fold_left f l st = fold_left f l' st.
Proof.
  intros Hf Hp. revert st.
  induction Hp as [|x l l' _ IH|x y l|l l1 l' _ IH1 _ IH2]; intros st; simpl.
  - done.
  - apply IH.
  - by rewrite Hf.
  - by rewrite IH1.
Qed.

(** The two marking loops of [knowledge_check], walked in any order. *)
Lemma mark_all_safes_any_order st l :
  l ≡ₚ elements (safes st) → fold_left mark_safe l st = mark_all_safes st.
Proof. apply fold_left_comm_perm, mark_safe_comm. Qed.

Lemma mark_all_mines_any_order st l :
  l ≡ₚ elements (mines st) → fold_left mark_mine l st = mark_all_mines st.
Proof. apply fold_left_comm_perm, mark_mine_comm. Qed.

(** The loop of [make_safe_move], walked in any order [l]. *)
Lemma make_safe_move_any_order st l :
  l ≡ₚ elements (safes st) →
  (∀ c, head (filter (λ c, c ∉ moves_made st) l) = Some c →
        c ∈ safes st ∧ c ∉ moves_made st) ∧
  (head (filter (λ c, c ∉ moves_made st) l) = None ↔
   ∀ c, c ∈ safes st → c ∈ moves_made st).
Proof.
  intros Hp.
  assert (∀ c, c ∈ l ↔ c ∈ safes st) as Hl.
  { intros c. by rewrite Hp, elem_of_elements. }
  split.
  - intros c [Hn Hc]%head_filter_Some. by apply Hl in Hc.
  - rewrite head_filter_None. split.
    + intros Hall c Hc%Hl.
      destruct (decide (c ∈ moves_made st)); [done|]. by destruct (Hall c Hc).
    + intros Hall c Hc%Hl Hn. by apply Hn, Hall.
Qed.

End IterationOrder.

(** ** Theorems *)

(** C10.  In every engine state reached from a fresh engine by any sequence
    of calls, every move made is in the safe set: [add_knowledge], the only
    call that records a move, marks the same cell safe, and the safe set
    never loses a cell. *)
Theorem C10_moves_made_subset_safes (h w : Z) (ks : list call) :
  moves_made (run (init h w) ks) ⊆ safes (run (init h w) ks).
Proof.
  assert (∀ st, moves_made st ⊆ safes st →
                moves_made (run st ks) ⊆ safes (run st ks)) as Hrun.
  { unfold run. induction ks as [|k ks IH]; intros st Hst; simpl; [done|].
    apply IH. destruct k as [c n|c|c| | |]; simpl; try done.
    - rewrite add_knowledge_moves. unfold add_knowledge.
      pose proof (knowledge_check_safes_mono (add_sentence st c n)) as Hm.
      rewrite add_sentence_safes in Hm. set_solver.
    - set_solver.
    - rewrite knowledge_check_moves.
      pose proof (knowledge_check_safes_mono st). set_solver. }
  apply Hrun. unfold init. simpl. set_solver.
Qed.

(** C9.  [make_safe_move] leaves the engine as it is; a cell it returns is in
    the safe set and has not been played; it returns a cell whenever such a
    cell exists and [None] otherwise; on a fresh engine it returns [None]. *)
Theorem C9_make_safe_move_pure :
  (∀ st : MinesweeperAI,
     (make_safe_move st).2 = st ∧
     (∀ c, (make_safe_move st).1 = Some c → c ∈ safes st ∧ c ∉ moves_made st) ∧
     ((∃ c, c ∈ safes st ∧ c ∉ moves_made st) →
      ∃ c, (make_safe_move st).1 = Some c) ∧
     ((make_safe_move st).1 = None ↔
      ∀ c, c ∈ safes st → c ∈ moves_made st)) ∧
  (∀ h w, (make_safe_move (init h w)).1 = None).
Proof.
  split.
  - intros st. unfold make_safe_move. simpl. split; [done|].
    assert (head (filter (λ c, c ∉ moves_made st) (elements (safes st))) = None ↔
            ∀ c, c ∈ safes st → c ∈ moves_made st) as Hnone.
    { rewrite head_filter_None. split.
      - intros H c Hc. apply elem_of_elements in Hc.
        destruct (decide (c ∈ moves_made st)); [done|]. by destruct (H c Hc).
      - intros H c Hc%elem_of_elements Hn. by apply Hn, H. }
    split; [|split; [|done]].
    + intros c [Hn Hc]%head_filter_Some. by apply elem_of_elements in Hc.
    + intros (c & Hc & Hn).
      destruct (head (filter (λ c, c ∉ moves_made st) (elements (safes st))))
        as [c'|] eqn:Hh; [by exists c'|].
      destruct Hn. by apply Hnone.
  - intros h w. reflexivity.
Qed.

(** The engine after [add_knowledge((0, 0), 0)] on a fresh 8 by 8 engine:
    [make_safe_move] hands out one of the three cells just proven safe. *)
Lemma C9_make_safe_move_witness :
  ∃ c, (make_safe_move (add_knowledge (init 8 8) (0, 0) 0)).1 = Some c ∧
       c ∈ safes (add_knowledge (init 8 8) (0, 0) 0) ∧
       c ∉ moves_made (add_knowledge (init 8 8) (0, 0) 0).
Proof.
  destruct C9_make_safe_move_pure as [Hst _].
  destruct (Hst (add_knowledge (init 8 8) (0, 0) 0)) as (_ & Hsome & Hex & _).
  destruct Hex as [c Hc].
  - exists (0, 1). split; [by vm_compute|]. by vm_compute.
  - exists c. split; [done|]. by apply Hsome.
Defined.




(** C7, on the code.  A sentence without cells is still in the knowledge base
    when [add_knowledge] returns.  One call on a fresh engine empties its own
    sentence after the pruning loop has run.  After [add_knowledge((1, 1), 0)]
    and [add_knowledge((0, 0), 0)] the three sentences are all empty when the
    pruning loop starts, and the loop, which removes from the list it walks,
    steps over one of them. *)
Theorem C7_empty_sentence_remains :
  knowledge (add_knowledge (init 8 8) (0, 0) 0) = [mkSentence ∅ 0] ∧
  knowledge (add_sentence (add_knowledge (init 8 8) (1, 1) 0) (0, 0) 0) =
    [mkSentence ∅ 0; mkSentence ∅ 0; mkSentence ∅ 0] ∧
  prune [mkSentence ∅ 0; mkSentence ∅ 0; mkSentence ∅ 0] = [mkSentence ∅ 0] ∧
  knowledge (add_knowledge (add_knowledge (init 8 8) (1, 1) 0) (0, 0) 0) =
    [mkSentence ∅ 0].
Proof. repeat split; by vm_compute. Qed.

(** C2, on the code.  [get_neighbor_cells] tests coordinates against the
    literal 8, not against the engine's dimensions: on a 1 by 3 engine the
    neighbours of [(0, 0)] include [(1, 0)] and [(1, 1)], which lie outside the
    board, where the specification's [neighbors_of] gives [(0, 1)] alone; and
    revealing [(0, 0)] with count 0 marks all three safe. *)
Theorem C2_neighbors_ignore_dimensions :
  get_neighbor_cells (init 1 3) (0, 0) = {[(0, 1); (1, 0); (1, 1)]} ∧
  neighbors_of (init 1 3) (0, 0) = {[(0, 1)]} ∧
  safes (add_knowledge (init 1 3) (0, 0) 0) = {[(0, 0); (0, 1); (1, 0); (1, 1)]}.
Proof. repeat split; by vm_compute. Qed.

(** On an 8 by 8 engine and for a cell of the board, the literal bound is the
    right one: [get_neighbor_cells] is the specification's [neighbors_of]. *)
Lemma get_neighbor_cells_8x8 (st : MinesweeperAI) (c : cell) :
  height st = 8 → width st = 8 → 0 ≤ c.1 < 8 → 0 ≤ c.2 < 8 →
  get_neighbor_cells st c = neighbors_of st c.
Proof.
  intros Hh Hw Hi Hj. unfold get_neighbor_cells, neighbors_of. apply set_eq.
  intros x. rewrite !elem_of_filter, elem_of_list_to_set, elem_of_neighbors.
  unfold keeps. rewrite Hh, Hw. split; intros [(? & ? & ?) (? & ? & ?)];
    (split; [split; [lia|done]|done]).
Qed.

(** C3, on the code.  [make_random_move] walks the literal 8 by 8 grid, not
    the engine's board: on a 1 by 1 engine whose only cell has been played it
    returns [(0, 1)], a cell outside the board, where no move is left. *)
Theorem C3_random_move_leaves_board :
  moves_made (add_knowledge (init 1 1) (0, 0) 0) = {[(0, 0)]} ∧
  (make_random_move (add_knowledge (init 1 1) (0, 0) 0)).1 = Some (0, 1).
Proof. split; by vm_compute. Qed.

(** For an 8 by 8 engine the grid walked is the board, and the move returned
    is as specified. *)
Lemma make_random_move_8x8 (st : MinesweeperAI) :
  height st = 8 → width st = 8 →
  (∀ c, (make_random_move st).1 = Some c →
        ((0 ≤ c.1 < height st) ∧ (0 ≤ c.2 < width st)) ∧
        (c ∉ moves_made st) ∧ (c ∉ mines st)) ∧
  ((make_random_move st).1 = None ↔
   ∀ c, 0 ≤ c.1 < height st → 0 ≤ c.2 < width st →
        c ∈ moves_made st ∨ c ∈ mines st).
Proof.
  intros -> ->. destruct (make_random_move_grid8 st) as (_ & Hsome & Hnone).
  split.
  - intros c Hc. destruct (Hsome c Hc) as (Hg%elem_of_grid8 & ? & ?). done.
  - rewrite Hnone. split.
    + intros H c Hi Hj. apply H, elem_of_grid8. done.
    + intros H c [Hi Hj]%elem_of_grid8. by apply H.
Qed.

Lemma board_one_mine_wf : Board.wf board_one_mine.
Proof. apply (bool_decide_unpack _). by vm_compute. Defined.

Lemma game_one_mine_truthful : Forall (truthful board_one_mine) game_one_mine.
Proof. apply (bool_decide_unpack _). by vm_compute. Defined.

(** C4, as the code has it.  On a board of at most 8 by 8 cells, in every
    engine state reached from a fresh engine by calls that tell the truth
    about the board ([add_knowledge] for a cell that is not a mine with the
    board's count, [mark_safe] for a cell that is not a mine, [mark_mine] for
    a mine, [knowledge_check], the two move selections), no cell is both in the
    safe set and in the mine set. *)
Theorem C4_safes_mines_disjoint (g : Board.Minesweeper) (h w : Z) (ks : list call) :
  Board.wf g → Board.height g ≤ 8 → Board.width g ≤ 8 →
  Forall (truthful g) ks →
  safes (run (init h w) ks) ∩ mines (run (init h w) ks) = ∅.
Proof.
  intros Hwf Hh Hw Hks.
  destruct (sound_run g Hwf Hh Hw (init h w) ks Hks (sound_init _ h w))
    as (Hs & _ & Hm & _).
  set_solver.
Qed.

Lemma C4_safes_mines_disjoint_witness :
  safes (run (init 8 8) game_one_mine) ∩ mines (run (init 8 8) game_one_mine) = ∅.
Proof.
  apply (C4_safes_mines_disjoint board_one_mine 8 8 game_one_mine).
  - exact board_one_mine_wf.
  - simpl. lia.
  - simpl. lia.
  - exact game_one_mine_truthful.
Defined.

(** C4 as stated fails: nothing stops a caller from marking one cell safe and
    then marking it as a mine. *)
Lemma C4_mark_safe_then_mine :
  safes (run (init 8 8) [MarkSafe (0, 0); MarkMine (0, 0)]) ∩
  mines (run (init 8 8) [MarkSafe (0, 0); MarkMine (0, 0)]) ≠ ∅.
Proof.
  assert ((0, 0) ∈ safes (run (init 8 8) [MarkSafe (0, 0); MarkMine (0, 0)]) ∩
                   mines (run (init 8 8) [MarkSafe (0, 0); MarkMine (0, 0)])) as Hin
    by (by vm_compute).
  intros Heq. rewrite Heq in Hin. by apply not_elem_of_empty in Hin.
Qed.

(** C5, as the code has it.  On a board of at most 8 by 8 cells, in every
    engine state reached from a fresh engine by calls that tell the truth
    about the board, every sentence of the knowledge base has
    [0 <= count <= |cells|]. *)
Theorem C5_counts_in_range (g : Board.Minesweeper) (h w : Z) (ks : list call) :
  Board.wf g → Board.height g ≤ 8 → Board.width g ≤ 8 →
  Forall (truthful g) ks →
  Forall in_range (knowledge (run (init h w) ks)).
Proof.
  intros Hwf Hh Hw Hks.
  destruct (sound_run g Hwf Hh Hw (init h w) ks Hks (sound_init _ h w))
    as (_ & _ & _ & Hk).
  eapply Forall_impl; [exact Hk|]. intros s. apply holds_in_range.
Qed.

Lemma C5_counts_in_range_witness :
  Forall in_range (knowledge (run (init 8 8) game_one_mine)).
Proof.
  apply (C5_counts_in_range board_one_mine 8 8 game_one_mine).
  - exact board_one_mine_wf.
  - simpl. lia.
  - simpl. lia.
  - exact game_one_mine_truthful.
Defined.

(** C5 as stated fails: two observations that no board can give together,
    each with a count between 0 and the number of neighbours, leave a
    sentence without cells whose count is 1. *)
Lemma C5_count_above_cells :
  knowledge (run (init 8 8) [AddKnowledge (0, 0) 1; AddKnowledge (0, 1) 0]) =
    [mkSentence ∅ 1; mkSentence ∅ 0] ∧
  ¬ Forall in_range
      (knowledge (run (init 8 8) [AddKnowledge (0, 0) 1; AddKnowledge (0, 1) 0])).
Proof.
  assert (knowledge (run (init 8 8) [AddKnowledge (0, 0) 1; AddKnowledge (0, 1) 0]) =
          [mkSentence ∅ 1; mkSentence ∅ 0]) as Hk by (by vm_compute).
  split; [exact Hk|]. rewrite Hk. intros Hall.
  inversion Hall as [|s l [_ Hle] _]; subst.
  vm_compute in Hle. by apply Hle.
Qed.

(** The sentence-level operations keep a sentence within range when the
    marked cell is what the call says it is. *)
Lemma sentence_marks_in_range (M : gset cell) (s : Sentence) (c : cell) :
  holds M s →
  (c ∉ M → in_range (Sentence.mark_safe s c)) ∧
  (c ∈ M → in_range (Sentence.mark_mine s c)).
Proof.
  intros Hs. split; intros Hc.
  - eapply holds_in_range. by apply holds_mark_safe.
  - eapply holds_in_range. by apply holds_mark_mine.
Qed.

(** [Sentence.mark_mine] on a cell that is not accounted for in the count
    takes the count below zero. *)
Lemma sentence_mark_mine_negative :
  in_range (mkSentence {[(0, 0)]} 0) ∧
  Sentence.mark_mine (mkSentence {[(0, 0)]} 0) (0, 0) = mkSentence ∅ (-1).
Proof. split; [by vm_compute|by vm_compute]. Qed.

(** ** Subset resolution and the closure pass *)

Section Resolution.

Implicit Types (st : MinesweeperAI) (s obj : Sentence) (kb : list Sentence).

Lemma covers_subseteq s obj : covers s obj = true ↔ cells s ⊆ cells obj.
Proof. unfold covers. rewrite bool_decide_eq_true. set_solver. Qed.

Lemma find_first_cover s l1 obj l2 :
  Forall (λ o, ¬ cells s ⊆ cells o) l1 →
  cells s ⊆ cells obj →
  find (covers s) (l1 ++ obj :: l2) = Some obj.
Proof.
  intros Hl1 Hobj. induction Hl1 as [|o l1 Ho _ IH]; simpl.
  - apply covers_subseteq in Hobj. by rewrite Hobj.
  - destruct (covers s o) eqn:Hc; [|done]. by apply covers_subseteq in Hc.
Qed.

(** When some sentence covers the new one, the loop appends the sentence
    derived from the first that does. *)
Lemma resolve_covered kb s :
  (∃ obj, obj ∈ kb ∧ cells s ⊆ cells obj) →
  ∃ sup, sup ∈ kb ∧ cells s ⊆ cells sup ∧ find (covers s) kb = Some sup ∧
         resolve kb s = kb ++ [derived sup s].
Proof.
  intros (obj & Hin & Hsub). unfold resolve.
  destruct (find (covers s) kb) as [sup|] eqn:Hf.
  - apply find_some in Hf as Hf'. destruct Hf' as [Hin' Hc].
    exists sup. repeat split; [by apply list_elem_of_In|by apply covers_subseteq].
  - apply list_elem_of_In in Hin.
    pose proof (find_none _ _ Hf _ Hin) as Hc.
    apply covers_subseteq in Hsub. congruence.
Qed.

(** One pass of [knowledge_check] draws the conclusions of the sentences it
    starts from. *)
Lemma knowledge_check_one_pass st s :
  s ∈ knowledge st →
  (count s = 0 → cells s ⊆ safes (knowledge_check st)) ∧
  (count s = len (cells s) → 0 < len (cells s) →
   cells s ⊆ mines (knowledge_check st)).
Proof.
  intros Hin. destruct (decide (cells s = ∅)) as [He|Hne].
  { rewrite He. split; intros; set_solver. }
  pose proof (prune_keeps _ _ Hin Hne) as Hp. split.
  - intros Hz c Hc. rewrite knowledge_check_safes. apply scan_safes.
    right. by exists s.
  - intros Hf Hpos c Hc. rewrite knowledge_check_mines. apply scan_mines.
    right. exists s. repeat split; [done|lia|done|done].
Qed.

(** Scenario: [{A, B, C} = 1] is the first sentence covering [{A, B}] when
    [{A, B} = 1] arrives. *)
Lemma subset_scenario st c (A B C : cell) l1 l2 :
  C ≠ A → C ≠ B →
  knowledge (observe st c) = l1 ++ mkSentence {[A; B; C]} 1 :: l2 →
  Forall (λ o, ¬ {[A; B]} ⊆ cells o) l1 →
  get_neighbor_cells (observe st c) c = {[A; B]} →
  knowledge (add_sentence st c 1) =
    knowledge (observe st c) ++ [mkSentence {[C]} 0; mkSentence {[A; B]} 1] ∧
  C ∈ safes (add_knowledge st c 1).
Proof.
  intros HA HB Hkb Hl1 Hn.
  assert (knowledge (add_sentence st c 1) =
          knowledge (observe st c) ++ [mkSentence {[C]} 0; mkSentence {[A; B]} 1])
    as Hadd.
  { assert (new_sentence st c 1 = mkSentence {[A; B]} 1) as Hs
      by (unfold new_sentence; by rewrite Hn).
    assert (resolve (knowledge (observe st c)) (mkSentence {[A; B]} 1) =
            knowledge (observe st c) ++ [mkSentence {[C]} 0]) as Hres.
    { unfold resolve. rewrite Hkb.
      rewrite find_first_cover; [|done|simpl; set_solver].
      do 2 f_equal. unfold derived. simpl. f_equal. set_solver. }
    rewrite add_sentence_knowledge, Hs, Hres, <- app_assoc. done. }
  split; [done|].
  assert (mkSentence {[C]} 0 ∈ knowledge (add_sentence st c 1)) as Hin.
  { rewrite Hadd, elem_of_app. right. left. }
  destruct (knowledge_check_one_pass _ _ Hin) as [Hz _].
  unfold add_knowledge. apply Hz; [done|]. simpl. set_solver.
Qed.

(** The same in terms of the knowledge base before the call: marking the
    revealed cell safe first takes it out of every older sentence. *)
Lemma resolve_from_prior st c n :
  (∃ obj, obj ∈ knowledge st ∧ cells (new_sentence st c n) ⊆ cells obj) →
  ∃ sup, sup ∈ knowledge st ∧ cells (new_sentence st c n) ⊆ cells sup ∧
         knowledge (add_sentence st c n) =
           knowledge (observe st c) ++
           [mkSentence ((cells sup ∖ {[c]}) ∖ cells (new_sentence st c n))
                       (count sup - n);
            new_sentence st c n].
Proof.
  intros (obj & Hin & Hsub).
  assert (c ∉ cells (new_sentence st c n)) as Hc.
  { unfold new_sentence, get_neighbor_cells. simpl.
    rewrite elem_of_filter. unfold keeps. simpl. set_solver. }
  assert (knowledge (observe st c) =
          map (λ s, Sentence.mark_safe s c) (knowledge st)) as Hobs by done.
  destruct (resolve_covered (knowledge (observe st c)) (new_sentence st c n))
    as (sup' & Hin' & Hsub' & _ & Hres).
  { exists (Sentence.mark_safe obj c). split.
    - rewrite Hobs. apply list_elem_of_fmap. by exists obj.
    - rewrite sentence_mark_safe_cells. set_solver. }
  rewrite Hobs in Hin'. apply list_elem_of_fmap in Hin' as (sup & -> & Hsup).
  exists sup. split; [done|]. split.
  - rewrite sentence_mark_safe_cells in Hsub'. set_solver.
  - rewrite add_sentence_knowledge, Hres, <- app_assoc. simpl.
    unfold derived. by rewrite sentence_mark_safe_cells, sentence_mark_safe_count.
Qed.

End Resolution.




(** One pass of the closure, as the code makes it.  When [add_knowledge]
    returns, every sentence the knowledge base held when the closure pass
    started has been used once: if
    its count was 0 its cells are in the safe set, if its count was the number
    of its cells, and not 0, they are in the mine set.  And when
    [{A, B, C} = 1] is in the knowledge base, first to cover it, at the time
    [{A, B} = 1] arrives, [C] is in the safe set after the call. *)
Lemma add_knowledge_one_pass :
  (∀ st c n s,
     s ∈ knowledge (add_sentence st c n) →
     (count s = 0 → cells s ⊆ safes (add_knowledge st c n)) ∧
     (count s = len (cells s) → 0 < len (cells s) →
      cells s ⊆ mines (add_knowledge st c n))) ∧
  (∀ st c (A B C : cell) l1 l2,
     C ≠ A → C ≠ B →
     knowledge (observe st c) = l1 ++ mkSentence {[A; B; C]} 1 :: l2 →
     Forall (λ o, ¬ {[A; B]} ⊆ cells o) l1 →
     get_neighbor_cells (observe st c) c = {[A; B]} →
     C ∈ safes (add_knowledge st c 1)).
Proof.
  split.
  - intros st c n s Hin. by apply knowledge_check_one_pass.
  - intros st c A B C l1 l2 HA HB Hkb Hl1 Hn.
    by destruct (subset_scenario st c A B C l1 l2 HA HB Hkb Hl1 Hn).
Qed.

Lemma add_knowledge_one_pass_example :
  (1, 0) ∈ safes (add_knowledge three_moves (0, 2) 1) ∧
  {[(0, 1); (1, 0); (1, 1)]} ⊆ mines (add_knowledge (init 8 8) (0, 0) 3).
Proof.
  destruct add_knowledge_one_pass as [Hpass Hscn]. split.
  - apply (Hscn three_moves (0, 2) (0, 1) (1, 1) (1, 0) [] []).
    + discriminate.
    + discriminate.
    + by vm_compute.
    + constructor.
    + by vm_compute.
  - destruct (Hpass (init 8 8) (0, 0) 3 (mkSentence {[(0, 1); (1, 0); (1, 1)]} 3))
      as [_ Hfull].
    + apply (bool_decide_unpack _). by vm_compute.
    + apply Hfull; by vm_compute.
Defined.

(** C1, on the code.  [add_knowledge] returns before the deduction has
    reached a fixed point.  With mines at [(0,1)], [(1,0)] and [(1,1)], after
    [add_knowledge((0,0), 3)] and [add_knowledge((0,2), 2)] the sentence
    [{(0,3), (1,2), (1,3)} = 0] is in the knowledge base and none of its cells
    is in the safe set: the marking of the pass exposed it and the pass does
    not look again.  And with a mine at [(0,1)], when [{(0,1), (1,1)} = 1]
    arrives first and [{(0,1), (1,1), (1,0)} = 1] second, both sentences are in
    the knowledge base and [(1, 0)] is not in the safe set: the subset loop
    only looks for an older sentence that covers the new one. *)
Theorem C1_closure_not_fixed_point :
  (knowledge (run (init 8 8) [AddKnowledge (0, 0) 3; AddKnowledge (0, 2) 2]) =
     [mkSentence {[(0, 3); (1, 2); (1, 3)]} 0] ∧
   safes (run (init 8 8) [AddKnowledge (0, 0) 3; AddKnowledge (0, 2) 2]) =
     {[(0, 0); (0, 2)]} ∧
   ¬ closed (run (init 8 8) [AddKnowledge (0, 0) 3; AddKnowledge (0, 2) 2])) ∧
  (knowledge (run (init 8 8) [AddKnowledge (0, 4) 0; AddKnowledge (2, 3) 0;
                              AddKnowledge (0, 2) 1; AddKnowledge (0, 0) 1]) =
     [mkSentence {[(0, 1); (1, 1)]} 1; mkSentence {[(0, 1); (1, 1); (1, 0)]} 1] ∧
   (1, 0) ∉ safes (run (init 8 8) [AddKnowledge (0, 4) 0; AddKnowledge (2, 3) 0;
                                   AddKnowledge (0, 2) 1; AddKnowledge (0, 0) 1])).
Proof.
  assert (knowledge (run (init 8 8) [AddKnowledge (0, 0) 3; AddKnowledge (0, 2) 2]) =
          [mkSentence {[(0, 3); (1, 2); (1, 3)]} 0]) as Hk by (by vm_compute).
  assert (safes (run (init 8 8) [AddKnowledge (0, 0) 3; AddKnowledge (0, 2) 2]) =
          {[(0, 0); (0, 2)]}) as Hs by (by vm_compute).
  split.
  - split; [exact Hk|]. split; [exact Hs|]. intros Hclosed.
    destruct (Hclosed (mkSentence {[(0, 3); (1, 2); (1, 3)]} 0)) as [Hz _].
    { rewrite Hk. left. }
    specialize (Hz eq_refl (0, 3)). rewrite Hs in Hz. simpl in Hz.
    assert ((0, 3) ∈ ({[(0, 0); (0, 2)]} : gset cell)) as Hin
      by (apply Hz; set_solver).
    revert Hin. apply (bool_decide_unpack _). by vm_compute.
  - split; [by vm_compute|]. apply (bool_decide_unpack _). by vm_compute.
Qed.

(** ** One closure pass, in closed form *)

Section ClosurePass.

Implicit Types (st : MinesweeperAI) (s : Sentence) (c : cell) (l : list cell).

Lemma step_grows st k :
  moves_made st ⊆ moves_made (step st k) ∧
  safes st ⊆ safes (step st k) ∧
  mines st ⊆ mines (step st k).
Proof.
  destruct k as [c n|c|c| | |]; simpl.
  - rewrite add_knowledge_moves. unfold add_knowledge.
    pose proof (knowledge_check_safes_mono (add_sentence st c n)) as Hs.
    pose proof (knowledge_check_mines_mono (add_sentence st c n)) as Hm.
    rewrite add_sentence_safes in Hs. rewrite add_sentence_mines in Hm.
    set_solver.
  - set_solver.
  - set_solver.
  - rewrite knowledge_check_moves.
    pose proof (knowledge_check_safes_mono st).
    pose proof (knowledge_check_mines_mono st). set_solver.
  - done.
  - done.
Qed.

Lemma fold_mark_safe_knowledge l st :
  knowledge (fold_left mark_safe l st) =
  map (without_safes (list_to_set l)) (knowledge st).
Proof.
  revert st. induction l as [|c l IH]; intros st; simpl.
  - rewrite <- (map_id (knowledge st)) at 1. apply map_ext. intros [X k].
    unfold without_safes. simpl. f_equal. set_solver.
  - rewrite IH. simpl. rewrite map_map. apply map_ext. intros s.
    rewrite sentence_mark_safe_eq. unfold without_safes. simpl. f_equal.
    set_solver.
Qed.

Lemma sentence_mark_mine_eq s c :
  Sentence.mark_mine s c = without_mines {[c]} s.
Proof.
  unfold Sentence.mark_mine, without_mines, len.
  destruct s as [X k]. simpl.
  destruct (decide (c ∈ X)) as [Hc|Hc]; f_equal.
  - assert (X ∩ {[c]} = {[c]}) as -> by set_solver.
    rewrite size_singleton. lia.
  - set_solver.
  - assert (X ∩ {[c]} = ∅) as -> by set_solver.
    rewrite size_empty. lia.
Qed.

Lemma without_mines_union S1 S2 s :
  without_mines S2 (without_mines S1 s) = without_mines (S1 ∪ S2) s.
Proof.
  unfold without_mines, len. simpl. f_equal; [set_solver|].
  assert (cells s ∩ (S1 ∪ S2) = cells s ∩ S1 ∪ (cells s ∖ S1) ∩ S2) as ->.
  { apply set_eq. intros x. destruct (decide (x ∈ S1)); set_solver. }
  assert (size (cells s ∩ S1 ∪ (cells s ∖ S1) ∩ S2) =
          (size (cells s ∩ S1) + size ((cells s ∖ S1) ∩ S2))%nat) as Hsz
    by (apply size_union; set_solver).
  lia.
Qed.

Lemma fold_mark_mine_knowledge l st :
  knowledge (fold_left mark_mine l st) =
  map (without_mines (list_to_set l)) (knowledge st).
Proof.
  revert st. induction l as [|c l IH]; intros st; simpl.
  - rewrite <- (map_id (knowledge st)) at 1. apply map_ext. intros [X k].
    unfold without_mines, len. simpl. f_equal; [set_solver|].
    assert (X ∩ ∅ = ∅) as -> by set_solver. rewrite size_empty. lia.
  - rewrite IH. simpl. rewrite map_map. apply map_ext. intros s.
    by rewrite sentence_mark_mine_eq, without_mines_union.
Qed.

(** The sentences after [knowledge_check], from the pruned list and the two
    sets the scan has reached. *)
Lemma knowledge_check_knowledge st :
  knowledge (knowledge_check st) =
  map (λ s, without_mines (scan (prune (knowledge st)) (safes st, mines st)).2
              (without_safes (scan (prune (knowledge st)) (safes st, mines st)).1 s))
      (prune (knowledge st)).
Proof.
  unfold knowledge_check, mark_all_mines, mark_all_safes.
  rewrite fold_mark_mine_knowledge, fold_mark_safe_knowledge.
  rewrite fold_mark_safe_mines. simpl. rewrite !list_to_set_elements_L.
  by rewrite map_map.
Qed.

Lemma knowledge_check_disjoint st s :
  s ∈ knowledge (knowledge_check st) →
  cells s ## safes (knowledge_check st) ∧ cells s ## mines (knowledge_check st).
Proof.
  rewrite knowledge_check_safes, knowledge_check_mines, knowledge_check_knowledge.
  intros (s0 & -> & _)%list_elem_of_fmap. simpl. set_solver.
Qed.

Lemma new_sentence_in st c k :
  new_sentence st c k ∈ knowledge (add_sentence st c k).
Proof. rewrite add_sentence_knowledge, elem_of_app. right. left. Qed.

(** The new sentence is used by the closure pass of its own call. *)
Lemma add_knowledge_neighbors st c k :
  (k = 0 → get_neighbor_cells (observe st c) c ⊆ safes (add_knowledge st c k)) ∧
  (k = len (get_neighbor_cells (observe st c) c) → k ≠ 0 →
   get_neighbor_cells (observe st c) c ⊆ mines (add_knowledge st c k)).
Proof.
  destruct (knowledge_check_one_pass _ _ (new_sentence_in st c k)) as [Hz Hf].
  unfold add_knowledge. split.
  - intros ->. by apply Hz.
  - intros Hk Hne. apply Hf; simpl; [done|].
    pose proof (len_nonneg (get_neighbor_cells (observe st c) c)). lia.
Qed.

Lemma grid8_sorted : StronglySorted row_major_le grid8.
Proof. apply (bool_decide_unpack _). by vm_compute. Qed.

End ClosurePass.

(** ** The pruning loop on lists without two empty neighbours *)

Section PruneMore.

Implicit Types (s : Sentence) (kb pre suf : list Sentence).

Lemma is_empty_len s : len (cells s) = 0 ↔ is_empty s.
Proof. apply len_zero. Qed.

Lemma list_remove_filter s kb :
  is_empty s →
  filter (λ x, ¬ is_empty x) (list_remove s kb) = filter (λ x, ¬ is_empty x) kb.
Proof.
  intros He. induction kb as [|y kb IH]; simpl; [done|].
  destruct (decide (y = s)) as [->|Hne].
  - by rewrite filter_cons_False by tauto.
  - rewrite !filter_cons. destruct (decide (¬ is_empty y)); by rewrite IH.
Qed.

Lemma prune_loop_filter n i kb :
  filter (λ x, ¬ is_empty x) (prune_loop n i kb) = filter (λ x, ¬ is_empty x) kb.
Proof.
  revert i kb. induction n as [|n IH]; intros i kb; simpl; [done|].
  destruct (kb !! i) as [s|]; [|done].
  destruct (decide (len (cells s) = 0)) as [Hz|Hz]; rewrite IH; [|done].
  apply list_remove_filter. by apply is_empty_len.
Qed.

Lemma list_remove_fresh s pre suf :
  Forall (λ x, x ≠ s) pre → list_remove s (pre ++ s :: suf) = pre ++ suf.
Proof.
  induction 1 as [|y pre Hy _ IH]; simpl.
  - by rewrite decide_True.
  - rewrite decide_False by done. by rewrite IH.
Qed.

Lemma no_adjacent_empty_tail s kb :
  no_adjacent_empty (s :: kb) → no_adjacent_empty kb.
Proof. destruct kb as [|s' kb]; simpl; tauto. Qed.

(** The loop at index [length pre], with [pre] behind it and [suf] ahead. *)
Lemma prune_loop_no_adjacent n pre suf :
  Forall (λ x, ¬ is_empty x) pre →
  no_adjacent_empty suf →
  (length suf ≤ n)%nat →
  prune_loop n (length pre) (pre ++ suf) =
  pre ++ filter (λ x, ¬ is_empty x) suf.
Proof.
  revert pre suf. induction n as [n IH] using lt_wf_ind.
  intros pre suf Hpre Hsuf Hn.
  destruct suf as [|s suf].
  { rewrite filter_nil, !app_nil_r. destruct n as [|n]; simpl; [done|].
    by rewrite lookup_ge_None_2 by lia. }
  destruct n as [|n]; simpl in Hn; [lia|]. simpl.
  rewrite lookup_app_r by lia. rewrite Nat.sub_diag. simpl.
  assert (∀ x (l1 l2 : list Sentence), l1 ++ x :: l2 = (l1 ++ [x]) ++ l2) as Hcons
    by (intros; by rewrite <- app_assoc).
  assert (∀ x (l1 : list Sentence), S (length l1) = length (l1 ++ [x])) as Hlen
    by (intros; rewrite length_app; simpl; lia).
  destruct (decide (len (cells s) = 0)) as [Hz|Hz].
  - apply is_empty_len in Hz. rewrite filter_cons_False by tauto.
    rewrite list_remove_fresh.
    2:{ eapply Forall_impl; [exact Hpre|]. intros x Hx ->. done. }
    destruct suf as [|s' suf].
    { rewrite filter_nil, !app_nil_r. destruct n as [|n]; simpl; [done|].
      by rewrite lookup_ge_None_2 by lia. }
    destruct Hsuf as [Hs' Hsuf].
    assert (¬ is_empty s') as Hne by tauto.
    rewrite filter_cons_True by done.
    rewrite (Hcons s' pre suf), (Hcons s' pre (filter _ suf)), (Hlen s' pre).
    apply IH; [lia| |by eapply no_adjacent_empty_tail|simpl in Hn; lia].
    apply Forall_app. split; [done|]. by repeat constructor.
  - assert (¬ is_empty s) as Hne by (by rewrite <- is_empty_len).
    rewrite filter_cons_True by done.
    rewrite (Hcons s pre suf), (Hcons s pre (filter _ suf)), (Hlen s pre).
    apply IH; [lia| |by eapply no_adjacent_empty_tail|lia].
    apply Forall_app. split; [done|]. by repeat constructor.
Qed.

End PruneMore.

(** ** The grid of the game class *)

Section GridFacts.

Implicit Types (g : Grid.Minesweeper) (b : list (list bool)) (n c : cell).

Lemma py_index_nonneg {A} (l : list A) (i : Z) :
  0 ≤ i →
  Grid.py_index l i =
  match l !! Z.to_nat i with Some x => inr x | None => inl Grid.IndexError end.
Proof.
  intros Hi. unfold Grid.py_index. cbv zeta.
  destruct (decide (0 ≤ i)); [|lia]. by rewrite decide_True by done.
Qed.

Lemma py_index_wrap {A} (l : list A) (i : Z) :
  - Z.of_nat (length l) ≤ i < 0 →
  Grid.py_index l i = Grid.py_index l (Z.of_nat (length l) + i).
Proof.
  intros Hi. unfold Grid.py_index. cbv zeta.
  destruct (decide (0 ≤ i)); [lia|].
  destruct (decide (0 ≤ Z.of_nat (length l) + i)); [|lia].
  by rewrite decide_True by lia.
Qed.

Lemma py_index_out {A} (l : list A) (i : Z) :
  i < - Z.of_nat (length l) ∨ Z.of_nat (length l) ≤ i →
  Grid.py_index l i = inl Grid.IndexError.
Proof.
  intros Hi. unfold Grid.py_index. cbv zeta.
  destruct (decide (0 ≤ i)).
  - rewrite decide_True by done. by rewrite lookup_ge_None_2 by lia.
  - by rewrite decide_False by lia.
Qed.

(** The cell of the grid at non-negative indices. *)
Lemma read_nonneg b n :
  0 ≤ n.1 → 0 ≤ n.2 →
  Grid.read b n =
  match b !! Z.to_nat n.1 ≫= (λ row, row !! Z.to_nat n.2) with
  | Some x => inr x
  | None => inl Grid.IndexError
  end.
Proof.
  intros H1 H2. unfold Grid.read. rewrite py_index_nonneg by done.
  destruct (b !! Z.to_nat n.1) as [row|]; simpl; [|done].
  by rewrite py_index_nonneg.
Qed.

Lemma consistent_empty h w :
  Grid.consistent (Grid.mkGrid h w ∅ (Grid.empty_board h w) ∅).
Proof.
  unfold Grid.consistent, Grid.empty_board. simpl. split; [|split; [|split]].
  - by rewrite length_replicate.
  - apply Forall_replicate. by rewrite length_replicate.
  - intros n H1 H2. rewrite read_nonneg by lia.
    rewrite lookup_replicate_2 by lia. simpl.
    rewrite lookup_replicate_2 by lia. done.
  - set_solver.
Qed.

Lemma consistent_set_mine g n :
  Grid.consistent g →
  (0 ≤ n.1 < Grid.height g) → (0 ≤ n.2 < Grid.width g) →
  Grid.consistent
    (Grid.mkGrid (Grid.height g) (Grid.width g) ({[n]} ∪ Grid.mines g)
                 (Grid.set_mine (Grid.board g) n) (Grid.mines_found g)).
Proof.
  intros (Hlen & Hrows & Hread & Hin) H1 H2.
  unfold Grid.consistent, Grid.set_mine. simpl. split; [|split; [|split]].
  - by rewrite length_alter.
  - apply Forall_alter; [done|]. intros row _ Hrow.
    rewrite Forall_lookup in Hrows. rewrite length_insert. eauto.
  - intros m Hm1 Hm2. specialize (Hread m Hm1 Hm2).
    rewrite read_nonneg in Hread |- * by lia.
    rewrite list_lookup_alter.
    destruct (decide (Z.to_nat n.1 = Z.to_nat m.1)) as [He1|Hne1].
    + rewrite He1.
      destruct (Grid.board g !! Z.to_nat m.1) as [row|] eqn:Hrow; simpl in *; [|done].
      rewrite list_lookup_insert.
      assert (length row = Z.to_nat (Grid.width g)) as Hl
        by (rewrite Forall_lookup in Hrows; eauto).
      destruct (decide (Z.to_nat n.2 = Z.to_nat m.2 ∧ (Z.to_nat n.2 < length row)%nat))
        as [[He2 _]|Hne2].
      * assert (m = n) as -> by (destruct m, n; simpl in *; f_equal; lia).
        f_equal. symmetry. apply bool_decide_eq_true. set_solver.
      * rewrite Hread. f_equal. apply bool_decide_ext.
        assert (m ≠ n) by (intros ->; apply Hne2; split; [done|lia]).
        set_solver.
    + rewrite Hread. f_equal. apply bool_decide_ext.
      assert (m ≠ n) by (intros ->; done). set_solver.
  - intros m [->%elem_of_singleton|Hm]%elem_of_union; [done|by apply Hin].
Qed.

Lemma randrange_ok h r :
  0 < h → Grid.randrange h r = inr (r `mod` h) ∧ 0 ≤ r `mod` h < h.
Proof.
  intros Hh. unfold Grid.randrange. rewrite decide_True by done.
  split; [done|]. by apply Z.mod_pos_bound.
Qed.

Lemma place_done draws g :
  Grid.place draws (len (Grid.mines g)) g = Grid.Built g.
Proof. destruct draws; simpl; by rewrite decide_True. Qed.

(** Whatever the draws, the loop of [__init__] keeps the grid and the set of
    mines in step, and raises nothing but the [ValueError] of [randrange]. *)
Lemma place_outcome draws target g :
  Grid.consistent g →
  match Grid.place draws target g with
  | Grid.Built g' => placed target draws g g'
  | Grid.Raised e =>
      e = Grid.ValueError ∧ (Grid.height g ≤ 0 ∨ Grid.width g ≤ 0)
  | Grid.Drawing => 0 < Grid.height g
  end.
Proof.
  revert g. induction draws as [|r draws IH]; intros g Hg; simpl.
  - destruct (decide (len (Grid.mines g) = target)); simpl.
    { unfold placed. split_and!; try done; set_solver. }
    destruct (decide (0 < Grid.height g)); simpl; [done|]. split; [done|lia].
  - destruct (decide (len (Grid.mines g) = target)); simpl.
    { unfold placed. split_and!; try done; set_solver. }
    unfold Grid.randrange at 1.
    destruct (decide (0 < Grid.height g)) as [Hh|Hh]; simpl; [|split; [done|lia]].
    unfold Grid.randrange at 1.
    destruct (decide (0 < Grid.width g)) as [Hw|Hw]; simpl; [|split; [done|lia]].
    pose proof (Z.mod_pos_bound r.1 _ Hh) as Hi.
    pose proof (Z.mod_pos_bound r.2 _ Hw) as Hj.
    destruct Hg as (Hlen & Hrows & Hread & Hin).
    rewrite (Hread (r.1 `mod` Grid.height g, r.2 `mod` Grid.width g)) by done.
    assert (Grid.hits (Grid.height g) (Grid.width g) (r :: draws) =
            {[(r.1 `mod` Grid.height g, r.2 `mod` Grid.width g)]} ∪
            Grid.hits (Grid.height g) (Grid.width g) draws) as Hhits by done.
    case_bool_decide as Hm.
    + specialize (IH g (conj Hlen (conj Hrows (conj Hread Hin)))).
      destruct (Grid.place draws target g) as [g'|e|]; [|done|done].
      unfold placed in *. rewrite Hhits.
      destruct IH as (? & ? & ? & ? & ? & ? & ?). split_and!; try done; set_solver.
    + set (g1 := Grid.mkGrid _ _ _ _ _).
      assert (Grid.consistent g1) as Hg1.
      { apply (consistent_set_mine g (r.1 `mod` Grid.height g, r.2 `mod` Grid.width g));
          [done|done|done]. }
      specialize (IH g1 Hg1).
      destruct (Grid.place draws target g1) as [g'|e|]; [|done|done].
      unfold placed in *. rewrite Hhits. simpl in IH.
      destruct IH as (? & ? & ? & ? & ? & ? & ?). split_and!; try done; set_solver.
Qed.

(** What [__init__] comes to, by outcome. *)
Lemma new_outcome h w target draws :
  match Grid.new h w target draws with
  | Grid.Built g =>
      Grid.consistent g ∧ len (Grid.mines g) = target ∧
      Grid.height g = h ∧ Grid.width g = w ∧ Grid.mines_found g = ∅ ∧
      Grid.mines g ⊆ Grid.hits h w draws
  | Grid.Raised e =>
      e = Grid.ValueError ∧ (h ≤ 0 ∨ w ≤ 0) ∧ target ≠ 0
  | Grid.Drawing => target ≠ 0 ∧ 0 < h
  end.
Proof.
  unfold Grid.new.
  pose proof (place_outcome draws target _ (consistent_empty h w)) as Hout.
  destruct (decide (target = 0)) as [->|Hne].
  { change 0 with (len (Grid.mines (Grid.mkGrid h w ∅ (Grid.empty_board h w) ∅)))
      in Hout |- * at 1.
    rewrite place_done in Hout |- *.
    destruct Hout as (? & ? & ? & ? & ? & ? & ?). simpl in *.
    split_and!; try done; set_solver. }
  destruct (Grid.place draws target _) as [g|e|] eqn:Hp.
  - destruct Hout as (? & ? & ? & ? & ? & ? & ?). simpl in *.
    split_and!; try done; set_solver.
  - destruct Hout as [-> Hdim]. simpl in Hdim. done.
  - simpl in Hout. done.
Qed.

(** On a board without rows the constructor raises as soon as it is asked
    for a mine, whatever the draws, also with none. *)
Lemma new_no_rows h w target draws :
  target ≠ 0 → h ≤ 0 → Grid.new h w target draws = Grid.Raised Grid.ValueError.
Proof.
  intros Ht Hh. unfold Grid.new.
  assert (len (∅ : gset cell) ≠ target) as Hne
    by (rewrite (proj2 (len_zero ∅) eq_refl); congruence).
  destruct draws as [|r draws]; simpl.
  - rewrite decide_False by done. simpl. by rewrite decide_False by lia.
  - rewrite decide_False by done. unfold Grid.randrange.
    by rewrite decide_False by lia.
Qed.

(** The loop stops once the draws have hit enough different cells. *)
Lemma place_builds draws target g :
  Grid.consistent g → 0 < Grid.height g → 0 < Grid.width g →
  len (Grid.mines g) ≤ target ≤
    len (Grid.mines g ∪ Grid.hits (Grid.height g) (Grid.width g) draws) →
  ∃ g', Grid.place draws target g = Grid.Built g'.
Proof.
  intros Hg Hh Hw. revert g Hg Hh Hw.
  induction draws as [|r draws IH]; intros g Hg Hh Hw Ht; simpl.
  - destruct (decide (len (Grid.mines g) = target)); [by eexists|].
    exfalso. unfold Grid.hits in Ht. simpl in Ht.
    assert (Grid.mines g ∪ ∅ = Grid.mines g) as Heq by set_solver.
    rewrite Heq in Ht. lia.
  - destruct (decide (len (Grid.mines g) = target)); [by eexists|].
    destruct (randrange_ok _ r.1 Hh) as [-> Hi].
    destruct (randrange_ok _ r.2 Hw) as [-> Hj].
    pose proof Hg as (Hlen & Hrows & Hread & Hin).
    rewrite (Hread (r.1 `mod` Grid.height g, r.2 `mod` Grid.width g)) by done.
    set (x := (r.1 `mod` Grid.height g, r.2 `mod` Grid.width g)) in *.
    assert (Grid.hits (Grid.height g) (Grid.width g) (r :: draws) =
            {[x]} ∪ Grid.hits (Grid.height g) (Grid.width g) draws) as Hhits by done.
    rewrite Hhits in Ht.
    case_bool_decide as Hm.
    + apply IH; [done..|].
      assert (Grid.mines g ∪ ({[x]} ∪ Grid.hits (Grid.height g) (Grid.width g) draws) =
              Grid.mines g ∪ Grid.hits (Grid.height g) (Grid.width g) draws) as Heq
        by set_solver.
      rewrite Heq in Ht. done.
    + apply IH; simpl; [by apply (consistent_set_mine g x)|done|done|].
      assert (Grid.mines g ∪ ({[x]} ∪ Grid.hits (Grid.height g) (Grid.width g) draws) =
              {[x]} ∪ Grid.mines g ∪ Grid.hits (Grid.height g) (Grid.width g) draws) as Heq
        by set_solver.
      rewrite Heq in Ht.
      assert (size ({[x]} ∪ Grid.mines g) = S (size (Grid.mines g))) as Hsz.
      { rewrite size_union by set_solver. by rewrite size_singleton. }
      unfold len in *. lia.
Qed.

Lemma size_list_to_set_le (l : list cell) :
  (size (list_to_set l : gset cell) ≤ length l)%nat.
Proof.
  induction l as [|x l IH].
  - rewrite list_to_set_nil, size_empty. done.
  - rewrite list_to_set_cons, size_union_alt, size_singleton. simpl.
    assert (size (list_to_set l ∖ {[x]} : gset cell) ≤
            size (list_to_set l : gset cell))%nat
      by (apply subseteq_size; set_solver).
    lia.
Qed.

(** A consistent board has no more mines than cells. *)
Lemma consistent_size g :
  Grid.consistent g →
  len (Grid.mines g) ≤ Z.max 0 (Grid.height g) * Z.max 0 (Grid.width g).
Proof.
  intros (_ & _ & _ & Hin).
  set (l := list_prod (seqZ 0 (Grid.height g)) (seqZ 0 (Grid.width g))).
  assert (Grid.mines g ⊆ list_to_set l) as Hsub.
  { intros n Hn. destruct (Hin n Hn) as [H1 H2].
    apply elem_of_list_to_set, list_elem_of_In. destruct n as [i j]. simpl in *.
    apply in_prod_iff. split; apply list_elem_of_In, elem_of_seqZ; lia. }
  apply subseteq_size in Hsub. pose proof (size_list_to_set_le l) as Hle.
  subst l. rewrite length_prod, !length_seqZ in Hle.
  assert (size (Grid.mines g) ≤ Z.to_nat (Grid.height g) * Z.to_nat (Grid.width g))%nat
    as Hn by lia.
  apply Nat2Z.inj_le in Hn. rewrite Nat2Z.inj_mul, !ZifyInst.of_nat_to_nat_eq in Hn.
  unfold len. lia.
Qed.

(** [is_mine] on a consistent board, for every pair of indices. *)
Lemma is_mine_spec g c :
  Grid.consistent g →
  Grid.is_mine g c =
  if decide ((- Grid.height g ≤ c.1 < Grid.height g) ∧
             (- Grid.width g ≤ c.2 < Grid.width g))
  then inr (bool_decide ((c.1 `mod` Grid.height g, c.2 `mod` Grid.width g)
                         ∈ Grid.mines g))
  else inl Grid.IndexError.
Proof.
  intros (Hlen & Hrows & Hread & Hin). unfold Grid.is_mine.
  destruct (decide _) as [[H1 H2]|Hout].
  - assert (0 < Grid.height g) as Hh by lia.
    assert (0 < Grid.width g) as Hw by lia.
    pose proof (Z.mod_pos_bound c.1 _ Hh) as Hi.
    pose proof (Z.mod_pos_bound c.2 _ Hw) as Hj.
    rewrite <- (Hread (c.1 `mod` Grid.height g, c.2 `mod` Grid.width g)) by done.
    unfold Grid.read. simpl.
    assert (Grid.py_index (Grid.board g) c.1 =
            Grid.py_index (Grid.board g) (c.1 `mod` Grid.height g)) as ->.
    { destruct (decide (0 ≤ c.1)).
      - by rewrite Z.mod_small by lia.
      - rewrite py_index_wrap by lia. f_equal.
        rewrite <- (Z.mod_small (Z.of_nat (length (Grid.board g)) + c.1)
                      (Grid.height g)) by lia.
        rewrite Hlen, Z2Nat.id by lia.
        rewrite Z.add_comm, <- (Z.mul_1_l (Grid.height g)) at 1.
        by rewrite Z.mod_add by lia. }
    destruct (Grid.py_index (Grid.board g) (c.1 `mod` Grid.height g))
      as [e|row] eqn:Hrow; [done|].
    assert (length row = Z.to_nat (Grid.width g)) as Hl.
    { rewrite py_index_nonneg in Hrow by lia.
      destruct (Grid.board g !! Z.to_nat (c.1 `mod` Grid.height g))
        as [row'|] eqn:Hr; [|done].
      inversion Hrow; subst. rewrite Forall_lookup in Hrows. eauto. }
    destruct (decide (0 ≤ c.2)).
    + by rewrite Z.mod_small by lia.
    + rewrite py_index_wrap by lia. f_equal.
      rewrite <- (Z.mod_small (Z.of_nat (length row) + c.2) (Grid.width g)) by lia.
      rewrite Hl, Z2Nat.id by lia.
      rewrite Z.add_comm, <- (Z.mul_1_l (Grid.width g)) at 1.
      by rewrite Z.mod_add by lia.
  - unfold Grid.read.
    destruct (decide (- Grid.height g ≤ c.1 < Grid.height g)) as [H1|H1].
    + destruct (Grid.py_index (Grid.board g) c.1) as [e|row] eqn:Hrow.
      { unfold Grid.py_index in Hrow. cbv zeta in Hrow.
        repeat (case_decide || case_match); by simplify_eq. }
      assert (length row = Z.to_nat (Grid.width g)) as Hl.
      { unfold Grid.py_index in Hrow. cbv zeta in Hrow.
        rewrite Forall_lookup in Hrows.
        repeat (case_decide || case_match); simplify_eq; eauto. }
      apply py_index_out. lia.
    + rewrite py_index_out by lia. done.
Qed.

Lemma consistent_wf g : Grid.consistent g → Board.wf (Grid.to_board g).
Proof. intros (_ & _ & _ & Hin) n Hn. by apply Hin. Qed.

(** The counting loop on the grid is the counting loop on the set of mines. *)
Lemma grid_count_fold g c (l : list cell) (a : Z) :
  Grid.consistent g →
  fold_left (Grid.count_cell g c) l (inr a) =
  inr (fold_left
         (λ cnt n,
            if decide (n = c) then cnt
            else if decide (Board.in_bounds (Grid.to_board g) n)
                 then (if Board.board (Grid.to_board g) n then cnt + 1 else cnt)
                 else cnt) l a).
Proof.
  intros (_ & _ & Hread & _). revert a.
  induction l as [|n l IH]; intros a; simpl; [done|].
  destruct (decide (n = c)); [apply IH|].
  unfold Board.in_bounds, Board.board. simpl.
  destruct (decide ((0 ≤ n.1 < Grid.height g) ∧ (0 ≤ n.2 < Grid.width g)))
    as [[H1 H2]|Hout].
  - rewrite (Hread n H1 H2). case_bool_decide; apply IH.
  - apply IH.
Qed.

Lemma nearby_mines_spec g c :
  Grid.consistent g →
  Grid.nearby_mines g c = inr (Board.nearby_mines (Grid.to_board g) c) ∧
  Board.nearby_mines (Grid.to_board g) c =
    len (list_to_set (neighbors c) ∩ Grid.mines g) ∧
  0 ≤ Board.nearby_mines (Grid.to_board g) c ≤ 8.
Proof.
  intros Hg. split; [by apply grid_count_fold|].
  rewrite nearby_mines_count by by apply consistent_wf.
  change (Board.mines (Grid.to_board g)) with (Grid.mines g).
  assert (list_to_set (neighbors c) ∩ Grid.mines g =
          list_to_set (filter (λ n, n ∈ Grid.mines g) (neighbors c))) as ->.
  { apply set_eq. intros x.
    rewrite elem_of_intersection, !elem_of_list_to_set, list_elem_of_filter. tauto. }
  unfold len. rewrite size_list_to_set by apply NoDup_filter, NoDup_neighbors.
  split; [done|].
  pose proof (length_filter (λ n, n ∈ Grid.mines g) (neighbors c)) as Hle.
  simpl in Hle. lia.
Qed.

(** A driver that asks the board tells the engine the truth. *)
Lemma honest_truthful g k :
  Grid.consistent g → honest g k → truthful (Grid.to_board g) k.
Proof.
  intros Hg. pose proof Hg as (_ & _ & _ & Hin).
  assert (∀ c, Grid.is_mine g c = inr false → c ∉ Grid.mines g) as Hfalse.
  { intros c Hc Hm. destruct (Hin c Hm) as [H1 H2].
    rewrite is_mine_spec in Hc by done.
    rewrite decide_True in Hc by lia. rewrite !Z.mod_small in Hc by lia.
    destruct c. simpl in *. rewrite bool_decide_eq_true_2 in Hc by done. done. }
  destruct k as [c n|c|c| | |]; simpl; try done.
  - intros [Hc Hn]. split; [by apply Hfalse|].
    destruct (nearby_mines_spec g c Hg) as [Heq _]. congruence.
  - apply Hfalse.
  - intros [[H1 H2] Hc]. rewrite is_mine_spec in Hc by done.
    destruct (decide _) as [[H3 H4]|]; [|done].
    rewrite !Z.mod_small in Hc by lia. destruct c. simpl in *.
    inversion Hc as [Hb]. by apply bool_decide_eq_true in Hb.
Qed.

Lemma grid_one_mine_built :
  Grid.new 8 8 1 [(8, 9); (0, 1)] = Grid.Built grid_one_mine.
Proof. by vm_compute. Qed.

Lemma grid_one_mine_consistent : Grid.consistent grid_one_mine.
Proof.
  pose proof (new_outcome 8 8 1 [(8, 9); (0, 1)]) as Hout.
  rewrite grid_one_mine_built in Hout. by destruct Hout.
Qed.

End GridFacts.

(** ** Further properties of the engine *)

(** X1.  No call takes a cell out of the moves made, the safe set or the mine
    set: after any sequence of calls each of the three sets includes what it
    held before. *)
Theorem X1_engine_sets_only_grow (st : MinesweeperAI) (ks : list call) :
  moves_made st ⊆ moves_made (run st ks) ∧
  safes st ⊆ safes (run st ks) ∧
  mines st ⊆ mines (run st ks).
Proof.
  unfold run. revert st. induction ks as [|k ks IH]; intros st; simpl; [done|].
  destruct (IH (step st k)) as (? & ? & ?).
  destruct (step_grows st k) as (? & ? & ?). set_solver.
Qed.

(** X2.  Soundness.  On a board of at most 8 by 8 cells, after any sequence
    of calls that tell the truth about the board, every cell of the mine set
    is a mine, no cell of the safe set is a mine, every sentence of the
    knowledge base counts exactly the mines among its cells, and a cell
    returned by [make_safe_move] is not a mine. *)
Theorem X2_truthful_play_sound (g : Board.Minesweeper) (h w : Z) (ks : list call) :
  Board.wf g → Board.height g ≤ 8 → Board.width g ≤ 8 →
  Forall (truthful g) ks →
  mines (run (init h w) ks) ⊆ Board.mines g ∧
  safes (run (init h w) ks) ## Board.mines g ∧
  Forall (holds (Board.mines g)) (knowledge (run (init h w) ks)) ∧
  ∀ m, (make_safe_move (run (init h w) ks)).1 = Some m → m ∉ Board.mines g.
Proof.
  intros Hwf Hh Hw Hks.
  destruct (sound_run g Hwf Hh Hw (init h w) ks Hks (sound_init _ h w))
    as (Hs & _ & Hm & Hk).
  split; [done|]. split; [done|]. split; [done|].
  intros m [_ Hin]%head_filter_Some. apply elem_of_elements in Hin. set_solver.
Qed.

Lemma X2_truthful_play_sound_witness :
  mines (run (init 8 8) game_one_mine) ⊆ Board.mines board_one_mine ∧
  safes (run (init 8 8) game_one_mine) ## Board.mines board_one_mine ∧
  Forall (holds (Board.mines board_one_mine))
         (knowledge (run (init 8 8) game_one_mine)) ∧
  ∀ m, (make_safe_move (run (init 8 8) game_one_mine)).1 = Some m →
       m ∉ Board.mines board_one_mine.
Proof.
  apply (X2_truthful_play_sound board_one_mine 8 8 game_one_mine).
  - exact board_one_mine_wf.
  - simpl. lia.
  - simpl. lia.
  - exact game_one_mine_truthful.
Defined.

(** X3.  When [knowledge_check] returns, no sentence of the knowledge base
    mentions a cell of the safe set or of the mine set: the known cells have
    been taken out of every sentence. *)
Theorem X3_knowledge_check_removes_known_cells (st : MinesweeperAI) :
  Forall (λ s, cells s ## safes (knowledge_check st) ∧
               cells s ## mines (knowledge_check st))
         (knowledge (knowledge_check st)).
Proof.
  rewrite Forall_forall. intros s Hs. by apply knowledge_check_disjoint.
Qed.

(** X4.  One call of [knowledge_check] in closed form: the knowledge base it
    leaves is the pruned list in which every sentence has lost the cells of
    the final safe set and of the final mine set, its count lowered by the
    number of its cells that are in the mine set and not in the safe set. *)
Theorem X4_knowledge_check_closed_form (st : MinesweeperAI) :
  knowledge (knowledge_check st) =
  map (λ s, mkSentence
              ((cells s ∖ safes (knowledge_check st)) ∖ mines (knowledge_check st))
              (count s - len ((cells s ∖ safes (knowledge_check st))
                              ∩ mines (knowledge_check st))))
      (prune (knowledge st)).
Proof.
  rewrite knowledge_check_safes, knowledge_check_mines.
  apply knowledge_check_knowledge.
Qed.

(** X5.  [add_knowledge] with count 0 puts every cell of the new sentence in
    the safe set; with a count that is the number of cells of the new
    sentence, and not 0, it puts every one of them in the mine set. *)
Theorem X5_add_knowledge_zero_or_full (st : MinesweeperAI) (c : cell) (k : Z) :
  (k = 0 → cells (new_sentence st c k) ⊆ safes (add_knowledge st c k)) ∧
  (k = len (cells (new_sentence st c k)) → k ≠ 0 →
   cells (new_sentence st c k) ⊆ mines (add_knowledge st c k)).
Proof. apply add_knowledge_neighbors. Qed.

Lemma X5_add_knowledge_zero_or_full_witness :
  cells (new_sentence (init 8 8) (0, 0) 0) ⊆ safes (add_knowledge (init 8 8) (0, 0) 0) ∧
  cells (new_sentence (init 8 8) (0, 0) 3) ⊆ mines (add_knowledge (init 8 8) (0, 0) 3).
Proof.
  split.
  - by apply (X5_add_knowledge_zero_or_full (init 8 8) (0, 0) 0).
  - apply (X5_add_knowledge_zero_or_full (init 8 8) (0, 0) 3); by vm_compute.
Defined.

(** X6.  After [add_knowledge(cell, count)] the cell is among the moves made
    and in the safe set, and no sentence of the knowledge base mentions it. *)
Theorem X6_add_knowledge_records_cell (st : MinesweeperAI) (c : cell) (k : Z) :
  c ∈ moves_made (add_knowledge st c k) ∧
  c ∈ safes (add_knowledge st c k) ∧
  Forall (λ s, c ∉ cells s) (knowledge (add_knowledge st c k)).
Proof.
  assert (c ∈ safes (add_knowledge st c k)) as Hs.
  { unfold add_knowledge. apply knowledge_check_safes_mono.
    rewrite add_sentence_safes. set_solver. }
  split; [rewrite add_knowledge_moves; set_solver|]. split; [done|].
  rewrite Forall_forall. intros s Hin.
  destruct (knowledge_check_disjoint _ _ Hin) as [Hd _]. set_solver.
Qed.

(** X7.  [get_neighbor_cells] returns exactly the cells next to the given one
    whose coordinates are not negative and not 8 and that are neither safe nor
    played; known mines are not left out; there are at most eight of them. *)
Theorem X7_get_neighbor_cells_spec (st : MinesweeperAI) (c : cell) :
  (∀ n, n ∈ get_neighbor_cells st c ↔
        adjacent c n ∧ (0 ≤ n.1 ∧ 0 ≤ n.2 ∧ n.1 ≠ 8 ∧ n.2 ≠ 8) ∧
        (n ∉ safes st) ∧ (n ∉ moves_made st)) ∧
  (size (get_neighbor_cells st c) ≤ 8)%nat.
Proof.
  split.
  - intros n. unfold get_neighbor_cells, adjacent, keeps.
    rewrite elem_of_filter, elem_of_list_to_set, elem_of_neighbors. tauto.
  - transitivity (size (list_to_set (neighbors c) : gset cell)).
    + apply subseteq_size. unfold get_neighbor_cells. intros n Hn.
      by apply elem_of_filter in Hn as [_ Hn].
    + rewrite size_list_to_set by apply NoDup_neighbors. done.
Qed.

(** X8.  [make_random_move] changes nothing; a cell it returns has both
    coordinates in 0..7 and is neither played nor a known mine; it returns
    [None] exactly when every cell of that 8 by 8 grid is played or a known
    mine. *)
Theorem X8_make_random_move_contract (st : MinesweeperAI) :
  (make_random_move st).2 = st ∧
  (∀ c, (make_random_move st).1 = Some c →
        ((0 ≤ c.1 < 8) ∧ (0 ≤ c.2 < 8)) ∧ (c ∉ moves_made st) ∧ (c ∉ mines st)) ∧
  ((make_random_move st).1 = None ↔
   ∀ c, 0 ≤ c.1 < 8 → 0 ≤ c.2 < 8 → c ∈ moves_made st ∨ c ∈ mines st).
Proof.
  destruct (make_random_move_grid8 st) as (Hst & Hsome & Hnone).
  split; [done|]. split.
  - intros c Hc. destruct (Hsome c Hc) as (Hg%elem_of_grid8 & ? & ?). done.
  - rewrite Hnone. split.
    + intros Hall c Hi Hj. by apply Hall, elem_of_grid8.
    + intros Hall c [Hi Hj]%elem_of_grid8. by apply Hall.
Qed.

(** X9.  [make_random_move] is not random: the cell it returns is the first
    free cell in row-major order, so every other free cell of the grid comes
    after it. *)
Theorem X9_make_random_move_first_free (st : MinesweeperAI) (c c' : cell) :
  (make_random_move st).1 = Some c →
  0 ≤ c'.1 < 8 → 0 ≤ c'.2 < 8 → c' ∉ moves_made st → c' ∉ mines st →
  row_major_le c c'.
Proof.
  unfold make_random_move. simpl.
  intros (l1 & l2 & Hg & Hl1)%list.head_filter_Some H1 H2 Hm Hn.
  assert (c' ∈ grid8) as Hc' by by apply elem_of_grid8.
  pose proof grid8_sorted as Hs. rewrite Hg in Hs, Hc'.
  apply elem_of_app in Hc' as [Hc'|Hc'].
  - rewrite Forall_forall in Hl1. destruct (Hl1 c' Hc'). done.
  - apply elem_of_cons in Hc' as [->|Hc'].
    + unfold row_major_le. lia.
    + apply StronglySorted_app_1_r, StronglySorted_cons in Hs as [Hall _].
      rewrite Forall_forall in Hall. by apply Hall.
Qed.

Lemma X9_make_random_move_first_free_witness :
  row_major_le (0, 1) (5, 5).
Proof.
  apply (X9_make_random_move_first_free (add_knowledge (init 8 8) (0, 0) 0)).
  - by vm_compute.
  - simpl. lia.
  - simpl. lia.
  - apply (bool_decide_unpack _). by vm_compute.
  - apply (bool_decide_unpack _). by vm_compute.
Defined.

(** X10.  After [add_knowledge(cell, 0)] for a cell that has a neighbour not
    yet safe or played, [make_safe_move] has a move to offer. *)
Theorem X10_safe_move_after_zero_count (st : MinesweeperAI) (c : cell) :
  cells (new_sentence st c 0) ≠ ∅ →
  ∃ m, (make_safe_move (add_knowledge st c 0)).1 = Some m ∧
       m ∈ safes (add_knowledge st c 0) ∧ m ∉ moves_made (add_knowledge st c 0).
Proof.
  intros Hne. apply set_choose_L in Hne as [x Hx]. simpl in Hx.
  destruct (add_knowledge_neighbors st c 0) as [Hz _].
  assert (x ∈ safes (add_knowledge st c 0)) as Hs by (apply Hz; done).
  assert (x ∉ moves_made (add_knowledge st c 0)) as Hm.
  { rewrite add_knowledge_moves. unfold get_neighbor_cells in Hx.
    apply elem_of_filter in Hx as [(_ & _ & Hm) _]. done. }
  unfold make_safe_move. simpl.
  destruct (head (filter (λ c0, c0 ∉ moves_made (add_knowledge st c 0))
                         (elements (safes (add_knowledge st c 0)))))
    as [m|] eqn:Hh.
  - exists m. split; [done|]. apply head_filter_Some in Hh as [? Hin].
    by apply elem_of_elements in Hin.
  - exfalso. rewrite head_filter_None in Hh. apply (Hh x); [|done].
    by apply elem_of_elements.
Qed.

Lemma X10_safe_move_after_zero_count_witness :
  ∃ m, (make_safe_move (add_knowledge (init 8 8) (0, 0) 0)).1 = Some m ∧
       m ∈ safes (add_knowledge (init 8 8) (0, 0) 0) ∧
       m ∉ moves_made (add_knowledge (init 8 8) (0, 0) 0).
Proof.
  apply (X10_safe_move_after_zero_count (init 8 8) (0, 0)).
  apply (bool_decide_unpack _). by vm_compute.
Defined.

(** X11.  The pruning loop of [knowledge_check] never drops or reorders a
    sentence that has cells: the sentences with cells are the same, in the
    same order, before and after. *)
Theorem X11_prune_keeps_nonempty_in_order (kb : list Sentence) :
  filter (λ s, ¬ is_empty s) (prune kb) = filter (λ s, ¬ is_empty s) kb.
Proof. unfold prune. apply prune_loop_filter. Qed.

(** X12.  When no two neighbouring sentences of the list are both without
    cells, the pruning loop removes every sentence without cells. *)
Theorem X12_prune_no_adjacent_empty (kb : list Sentence) :
  no_adjacent_empty kb → prune kb = filter (λ s, ¬ is_empty s) kb.
Proof.
  intros Hkb.
  apply (prune_loop_no_adjacent (length kb) [] kb); [constructor|done|lia].
Qed.

Lemma X12_prune_no_adjacent_empty_witness :
  prune [mkSentence ∅ 0; mkSentence {[(0, 1)]} 1; mkSentence ∅ 2] =
  filter (λ s, ¬ is_empty s)
         [mkSentence ∅ 0; mkSentence {[(0, 1)]} 1; mkSentence ∅ 2].
Proof.
  apply X12_prune_no_adjacent_empty. simpl.
  split_and!; try done; apply (bool_decide_unpack _); by vm_compute.
Defined.

(** X13.  When no sentence of the knowledge base includes the cells of the
    new sentence, [add_knowledge] appends the new sentence and nothing else
    before its closure pass; so it is on a fresh engine. *)
Theorem X13_add_knowledge_no_cover (st : MinesweeperAI) (c : cell) (k : Z) :
  Forall (λ obj, ¬ cells (new_sentence st c k) ⊆ cells obj)
         (knowledge (observe st c)) →
  knowledge (add_sentence st c k) =
  knowledge (observe st c) ++ [new_sentence st c k].
Proof.
  intros Hno. rewrite add_sentence_knowledge. f_equal. unfold resolve.
  destruct (find (covers (new_sentence st c k)) (knowledge (observe st c)))
    as [obj|] eqn:Hf; [|done].
  apply find_some in Hf as [Hin Hc%covers_subseteq].
  rewrite Forall_forall in Hno. apply list_elem_of_In in Hin.
  by destruct (Hno obj Hin).
Qed.

Lemma X13_add_knowledge_no_cover_witness :
  knowledge (add_sentence (init 8 8) (0, 0) 1) =
  knowledge (observe (init 8 8) (0, 0)) ++ [new_sentence (init 8 8) (0, 0) 1].
Proof. apply X13_add_knowledge_no_cover. constructor. Defined.

(** X14.  When every neighbour of the revealed cell is already safe or
    played, the new sentence has no cells, every sentence includes it, and
    [add_knowledge] appends a copy of the first sentence of the knowledge base
    with its count lowered by the count of the call. *)
Theorem X14_add_knowledge_all_neighbors_known
    (st : MinesweeperAI) (c : cell) (k : Z) (obj : Sentence) (rest : list Sentence) :
  cells (new_sentence st c k) = ∅ →
  knowledge (observe st c) = obj :: rest →
  knowledge (add_sentence st c k) =
    obj :: rest ++ [mkSentence (cells obj) (count obj - k); mkSentence ∅ k].
Proof.
  intros Hn Hkb. rewrite add_sentence_knowledge. unfold resolve.
  assert (new_sentence st c k = mkSentence ∅ k) as ->.
  { unfold new_sentence in *. simpl in Hn. by rewrite Hn. }
  rewrite Hkb. simpl.
  assert (covers (mkSentence ∅ k) obj = true) as ->
    by (apply covers_subseteq; set_solver).
  simpl. rewrite <- app_assoc. simpl. do 3 f_equal.
  unfold derived. simpl. f_equal. set_solver.
Qed.

Lemma X14_add_knowledge_all_neighbors_known_witness :
  knowledge (add_sentence (add_knowledge (add_knowledge (init 8 8) (3, 3) 1) (0, 0) 0)
                          (0, 0) 5) =
  mkSentence (list_to_set (neighbors (3, 3))) 1 ::
  [mkSentence ∅ 0] ++
  [mkSentence (list_to_set (neighbors (3, 3))) (1 - 5); mkSentence ∅ 5].
Proof.
  apply (X14_add_knowledge_all_neighbors_known
           (add_knowledge (add_knowledge (init 8 8) (3, 3) 1) (0, 0) 0)
           (0, 0) 5 (mkSentence (list_to_set (neighbors (3, 3))) 1) [mkSentence ∅ 0]).
  - by vm_compute.
  - by vm_compute.
Defined.

(** X15.  The order of marking does not matter: two [mark_safe] calls
    commute, two [mark_mine] calls commute, and [mark_safe] commutes with
    [mark_mine] when the two cells differ. *)
Theorem X15_marks_commute (st : MinesweeperAI) (a b : cell) :
  mark_safe (mark_safe st a) b = mark_safe (mark_safe st b) a ∧
  mark_mine (mark_mine st a) b = mark_mine (mark_mine st b) a ∧
  (a ≠ b → mark_mine (mark_safe st a) b = mark_safe (mark_mine st b) a).
Proof.
  split; [apply mark_safe_comm|]. split; [apply mark_mine_comm|].
  intros Hab. unfold mark_safe, mark_mine. simpl. f_equal.
  rewrite !map_map. apply map_ext. intros s.
  rewrite !sentence_mark_safe_eq, !sentence_mark_mine_eq.
  unfold without_mines. simpl. f_equal; [set_solver|].
  do 2 f_equal. set_solver.
Qed.

(** X16.  The inference rules are sound.  For a sentence that counts exactly
    the mines among its cells: [Sentence.mark_safe] with a cell that is not a
    mine and [Sentence.mark_mine] with a mine keep it so; the sentence derived
    from a true sentence that includes its cells is true; with count 0 none
    of its cells is a mine, with count [|cells|] all are. *)
Theorem X16_inference_rules_sound (M : gset cell) (s obj : Sentence) (c : cell) :
  holds M s →
  (c ∉ M → holds M (Sentence.mark_safe s c)) ∧
  (c ∈ M → holds M (Sentence.mark_mine s c)) ∧
  (holds M obj → cells s ⊆ cells obj → holds M (derived obj s)) ∧
  (count s = 0 → cells s ## M) ∧
  (count s = len (cells s) → cells s ⊆ M).
Proof.
  intros Hs. split; [intros; by apply holds_mark_safe|].
  split; [intros; by apply holds_mark_mine|].
  split; [|split].
  - intros Hobj Hsub. apply holds_derived; [set_solver|done|done].
  - by apply holds_zero_disjoint.
  - by apply holds_full_subseteq.
Qed.

Lemma X16_inference_rules_sound_witness :
  holds {[(0, 1)]} (Sentence.mark_mine (mkSentence {[(0, 1); (1, 1)]} 1) (0, 1)) ∧
  holds {[(0, 1)]}
        (derived (mkSentence {[(0, 1); (1, 0); (1, 1)]} 1)
                 (mkSentence {[(0, 1); (1, 1)]} 1)).
Proof.
  destruct (X16_inference_rules_sound {[(0, 1)]}
              (mkSentence {[(0, 1); (1, 1)]} 1)
              (mkSentence {[(0, 1); (1, 0); (1, 1)]} 1) (0, 1))
    as (_ & Hmine & Hder & _).
  - by vm_compute.
  - split.
    + apply Hmine. apply (bool_decide_unpack _). by vm_compute.
    + apply Hder; [by vm_compute|]. apply (bool_decide_unpack _). by vm_compute.
Defined.

(** ** Properties of the board class *)

(** X17.  The constructor [Minesweeper(height, width, mines)], whatever the
    draws.  When it returns, the board has the dimensions asked for, exactly
    [mines] mines, all on the board and all at cells the draws hit, its grid
    holds [True] exactly at the mines, and no mine is found yet.  The only
    exception it raises is [randrange]'s [ValueError], on a board without
    rows or columns that is asked for mines; without rows it raises before
    any draw.  With 0 mines asked it returns at once. *)
Theorem X17_new_outcome (h w target : Z) (draws : list (Z * Z)) :
  match Grid.new h w target draws with
  | Grid.Built g =>
      Grid.consistent g ∧ len (Grid.mines g) = target ∧
      Grid.height g = h ∧ Grid.width g = w ∧ Grid.mines_found g = ∅ ∧
      Grid.mines g ⊆ Grid.hits h w draws
  | Grid.Raised e => e = Grid.ValueError ∧ (h ≤ 0 ∨ w ≤ 0) ∧ target ≠ 0
  | Grid.Drawing => target ≠ 0 ∧ 0 < h
  end ∧
  (target = 0 → ∃ g, Grid.new h w target draws = Grid.Built g) ∧
  (target ≠ 0 ∧ h ≤ 0 → Grid.new h w target draws = Grid.Raised Grid.ValueError).
Proof.
  split; [apply new_outcome|]. split.
  - intros ->. exists (Grid.mkGrid h w ∅ (Grid.empty_board h w) ∅).
    unfold Grid.new.
    change 0 with (len (Grid.mines (Grid.mkGrid h w ∅ (Grid.empty_board h w) ∅)))
      at 1.
    apply place_done.
  - intros [Ht Hh]. by apply new_no_rows.
Qed.

(** X18.  The constructor returns as soon as the draws have hit as many
    different cells as mines are asked for. *)
Theorem X18_new_builds (h w target : Z) (draws : list (Z * Z)) :
  0 < h → 0 < w → 0 ≤ target ≤ len (Grid.hits h w draws) →
  ∃ g, Grid.new h w target draws = Grid.Built g ∧ len (Grid.mines g) = target.
Proof.
  intros Hh Hw Ht.
  destruct (place_builds draws target (Grid.mkGrid h w ∅ (Grid.empty_board h w) ∅))
    as [g Hg]; simpl; [apply consistent_empty|done|done| |].
  - assert (∅ ∪ Grid.hits h w draws = Grid.hits h w draws) as -> by set_solver.
    rewrite (proj2 (len_zero ∅) eq_refl). lia.
  - exists g. split; [done|].
    pose proof (new_outcome h w target draws) as Hout. unfold Grid.new in Hout.
    rewrite Hg in Hout. by destruct Hout as (_ & Hlen & _).
Qed.

Lemma X18_new_builds_witness :
  ∃ g, Grid.new 8 8 2 [(0, 1); (8, 9); (3, 4)] = Grid.Built g ∧
       len (Grid.mines g) = 2.
Proof.
  apply X18_new_builds; [lia|lia|]. split; [lia|].
  apply (bool_decide_unpack _). by vm_compute.
Defined.

(** X19.  Asked for a negative number of mines, or for more mines than the
    board has cells, the constructor never returns: its loop is still drawing
    (or has raised) after any number of draws. *)
Theorem X19_new_never_builds (h w target : Z) (draws : list (Z * Z)) :
  target < 0 ∨ Z.max 0 h * Z.max 0 w < target →
  ¬ ∃ g, Grid.new h w target draws = Grid.Built g.
Proof.
  intros Ht [g Hnew]. pose proof (new_outcome h w target draws) as Hout.
  rewrite Hnew in Hout. destruct Hout as (Hg & Hlen & Hh & Hw & _).
  pose proof (consistent_size g Hg) as Hsz. rewrite Hh, Hw in Hsz.
  pose proof (len_nonneg (Grid.mines g)). lia.
Qed.

Lemma X19_new_never_builds_witness :
  ¬ ∃ g, Grid.new 1 2 3 [(0, 0); (0, 1); (5, 5); (0, 1)] = Grid.Built g.
Proof. apply X19_new_never_builds. right. simpl. lia. Defined.

(** X20.  A board fresh from the constructor is won exactly when it was
    asked for no mines. *)
Theorem X20_won_fresh (h w target : Z) (draws : list (Z * Z)) (g : Grid.Minesweeper) :
  Grid.new h w target draws = Grid.Built g →
  Grid.won g = bool_decide (target = 0).
Proof.
  intros Hnew. pose proof (new_outcome h w target draws) as Hout.
  rewrite Hnew in Hout. destruct Hout as (_ & Hlen & _ & _ & Hf & _).
  unfold Grid.won. rewrite Hf. apply bool_decide_ext. rewrite <- Hlen.
  split.
  - intros <-. unfold len. by rewrite size_empty.
  - intros Hz. symmetry. by apply len_zero.
Qed.

Lemma X20_won_fresh_witness : Grid.won grid_one_mine = bool_decide (1 = 0).
Proof.
  apply (X20_won_fresh 8 8 1 [(8, 9); (0, 1)]). exact grid_one_mine_built.
Defined.

(** X21.  [is_mine] on a board whose grid and mines agree.  For a row index
    in [-height .. height - 1] and a column index in [-width .. width - 1] it
    answers for the cell the indices denote in Python, a negative index
    counting from the end, so also for indices that are no cell of the board;
    for any other index it raises [IndexError]. *)
Theorem X21_is_mine_spec (g : Grid.Minesweeper) (c : cell) :
  Grid.consistent g →
  Grid.is_mine g c =
  if decide ((- Grid.height g ≤ c.1 < Grid.height g) ∧
             (- Grid.width g ≤ c.2 < Grid.width g))
  then inr (bool_decide ((c.1 `mod` Grid.height g, c.2 `mod` Grid.width g)
                         ∈ Grid.mines g))
  else inl Grid.IndexError.
Proof. apply is_mine_spec. Qed.

Lemma X21_is_mine_spec_witness :
  Grid.is_mine grid_one_mine (-8, -7) = inr true ∧
  Grid.is_mine grid_one_mine (0, 8) = inl Grid.IndexError.
Proof.
  split.
  - rewrite (X21_is_mine_spec grid_one_mine (-8, -7) grid_one_mine_consistent).
    by vm_compute.
  - rewrite (X21_is_mine_spec grid_one_mine (0, 8) grid_one_mine_consistent).
    by vm_compute.
Defined.

(** X22.  [nearby_mines] on a board whose grid and mines agree raises
    nothing, even for a cell off the board; it returns the number of mines
    among the eight neighbours of the cell, the cell itself not counted, a
    number between 0 and 8. *)
Theorem X22_nearby_mines_spec (g : Grid.Minesweeper) (c : cell) :
  Grid.consistent g →
  ∃ k, Grid.nearby_mines g c = inr k ∧
       k = len (list_to_set (neighbors c) ∩ Grid.mines g) ∧
       0 ≤ k ≤ 8.
Proof.
  intros Hg. destruct (nearby_mines_spec g c Hg) as (Hk & Hlen & Hb).
  exists (Board.nearby_mines (Grid.to_board g) c). done.
Qed.

Lemma X22_nearby_mines_spec_witness :
  ∃ k, Grid.nearby_mines grid_one_mine (0, 1) = inr k ∧
       k = len (list_to_set (neighbors (0, 1)) ∩ Grid.mines grid_one_mine) ∧
       0 ≤ k ≤ 8.
Proof. apply X22_nearby_mines_spec. exact grid_one_mine_consistent. Defined.

(** X23.  A whole game.  On a board the constructor has built, of at most 8
    by 8 cells, with an engine driven by calls that ask the board ([is_mine]
    before a cell is revealed or marked, [nearby_mines] for the count), a cell
    returned by [make_safe_move] is never a mine. *)
Theorem X23_game_safe_moves (h w target : Z) (draws : list (Z * Z))
    (g : Grid.Minesweeper) (ks : list call) (m : cell) :
  Grid.new h w target draws = Grid.Built g →
  h ≤ 8 → w ≤ 8 →
  Forall (honest g) ks →
  (make_safe_move (run (init h w) ks)).1 = Some m →
  m ∉ Grid.mines g.
Proof.
  intros Hnew Hh Hw Hks Hm.
  pose proof (new_outcome h w target draws) as Hout.
  rewrite Hnew in Hout. destruct Hout as (Hg & _ & Hgh & Hgw & _).
  assert (Forall (truthful (Grid.to_board g)) ks) as Htr.
  { eapply Forall_impl; [exact Hks|]. intros k. by apply honest_truthful. }
  assert (Board.height (Grid.to_board g) ≤ 8) as Hh' by (simpl; lia).
  assert (Board.width (Grid.to_board g) ≤ 8) as Hw' by (simpl; lia).
  destruct (sound_run (Grid.to_board g) (consistent_wf g Hg) Hh' Hw'
              (init h w) ks Htr (sound_init _ h w)) as (Hs & _).
  apply head_filter_Some in Hm as [_ Hin]. apply elem_of_elements in Hin.
  simpl in Hs. set_solver.
Qed.

Lemma X23_game_safe_moves_witness :
  (0, 5) ∉ Grid.mines grid_one_mine.
Proof.
  apply (X23_game_safe_moves 8 8 1 [(8, 9); (0, 1)] grid_one_mine
           [AddKnowledge (0, 4) 0; AddKnowledge (0, 0) 1; MarkMine (0, 1)]).
  - exact grid_one_mine_built.
  - lia.
  - lia.
  - apply (bool_decide_unpack _). by vm_compute.
  - by vm_compute.
Defined.
